(** * The enclosure dashboard of the web UI: state store, tile view, CPU gauge

    A shallow embedding of
    - [src/app/pages/system/enclosure/services/enclosure.store.ts]
      (the [EnclosureStore] component store),
    - the [DisksOverviewTilesComponent] tile view ([poolsInfo]),
    - the [CpuChartGaugeComponent] gauge ([cpuAvg]),
    followed by the properties of these three that are verified. *)

From Stdlib Require Import ZArith QArith Qabs Floats.SpecFloat Ascii String.
From stdpp Require Import base option list gmap strings.

Local Open Scope Z_scope.

(** ** JavaScript objects: identity, allocation, exceptions *)

Module Js.

(** Address of an object.  Two object values are the same object ([===])
    exactly when they live at the same address. *)
Definition ref := nat.

Record Obj (A : Type) := mkObj { addr : ref; val : A }.
Arguments mkObj {A} _ _.
Arguments addr {A} _.
Arguments val {A} _.

(** A computation that may allocate fresh objects and may throw: it takes
    the next free address, and returns [None] when an exception escapes. *)
Definition M (A : Type) := ref → option (A * ref).

Definition ret {A} (a : A) : M A := λ n, Some (a, n).

Definition bind {A B} (m : M A) (k : A → M B) : M B :=
  λ n, match m n with
       | Some (a, n') => k a n'
       | None => None
       end.

Definition throw {A} : M A := λ _, None.

(** An object literal [{ ... }]: a new object at the next free address. *)
Definition new {A} (v : A) : M (Obj A) := λ n, Some (mkObj n v, S n).

(** [!x] for a string that may be [undefined]: [undefined] and the empty
    string are falsy, every other string is truthy. *)
Definition truthy (x : option string) : bool :=
  match x with
  | Some s => negb (String.eqb s EmptyString)
  | None => false
  end.

End Js.

#[global] Instance Js_ret : MRet Js.M := @Js.ret.
#[global] Instance Js_bind : MBind Js.M := λ A B k m, Js.bind m k.

(** ** Data model (app/interfaces/enclosure.interface, enums)

    The interface and enum declarations are imported by the sources but
    are not among them; the records below carry the members the sources
    read. *)

(** Modelled from the spec: [EnclosureDiskStatus], of which the sources
    name [Online] and [Faulted]. *)
Inductive EnclosureDiskStatus :=
| Online
| Faulted
| OtherStatus (name : string).

(** Modelled from the spec: [EnclosureView], the view kinds, of which the
    sources name the default [Pools]. *)
Inductive EnclosureView :=
| Pools
| OtherView (name : string).

(** Modelled from the spec: [EnclosureSide], the enclosure sides Front,
    Rear and Top. *)
Inductive EnclosureSide := Front | Rear | Top.

(** The pool-membership descriptor of a slot ([slot.pool_info]). *)
Record EnclosureSlotPoolInfo := {
  pool_name : string;
  disk_status : EnclosureDiskStatus;
}.

(** Modelled from the spec: a slot carries an optional pool-membership
    descriptor ([null] when the bay holds no pool disk) and
    physical-position metadata. *)
Record DashboardEnclosureSlot := {
  position : N;
  pool_info : option EnclosureSlotPoolInfo;
}.

(** [elements]: per element type, an object keyed by slot number.  The
    object is kept as the list of its properties in enumeration order,
    which is the order [Object.values] follows. *)
Record EnclosureElements := {
  ArrayDeviceSlot : option (list (N * DashboardEnclosureSlot));
}.

(** An enclosure object.  A member is [None] when the object has no such
    property, as for the object [{ ...undefined, label }]. *)
Record DashboardEnclosure := {
  id : option string;
  label : option string;
  elements : option EnclosureElements;
}.

#[global] Instance EnclosureDiskStatus_eq_dec : EqDecision EnclosureDiskStatus.
Proof. solve_decision. Defined.
#[global] Instance EnclosureView_eq_dec : EqDecision EnclosureView.
Proof. solve_decision. Defined.
#[global] Instance EnclosureSide_eq_dec : EqDecision EnclosureSide.
Proof. solve_decision. Defined.
#[global] Instance EnclosureSlotPoolInfo_eq_dec : EqDecision EnclosureSlotPoolInfo.
Proof. solve_decision. Defined.
#[global] Instance DashboardEnclosureSlot_eq_dec : EqDecision DashboardEnclosureSlot.
Proof. solve_decision. Defined.
#[global] Instance EnclosureElements_eq_dec : EqDecision EnclosureElements.
Proof. solve_decision. Defined.
#[global] Instance DashboardEnclosure_eq_dec : EqDecision DashboardEnclosure.
Proof. solve_decision. Defined.

(** ** The [DashboardEnclosure[]] array *)

(** A JavaScript array of enclosures: the elements at the array indices
    [0 .. length-1] ([None] for a hole or [undefined]), and the own
    properties stored under keys that are not array indices (negative
    numbers). *)
Record EnclosureArray := {
  items : list (option DashboardEnclosure);
  props : gmap Z DashboardEnclosure;
}.

(** [[]] *)
Definition empty_array : EnclosureArray := {| items := []; props := ∅ |}.

(** The array a remote call delivers. *)
Definition array_of (payload : list DashboardEnclosure) : EnclosureArray :=
  {| items := Some <$> payload; props := ∅ |}.

(** [[...a]]: the iterator visits the array indices only. *)
Definition spread_array (a : EnclosureArray) : EnclosureArray :=
  {| items := items a; props := ∅ |}.

(** [a[i]] *)
Definition array_get (a : EnclosureArray) (i : Z) : option DashboardEnclosure :=
  if decide (0 ≤ i) then mjoin (items a !! Z.to_nat i) else props a !! i.

(** [l[i] = v] on the indexed part: past the end the array grows and the
    skipped indices are holes. *)
Definition items_set (l : list (option DashboardEnclosure)) (i : nat)
    (v : DashboardEnclosure) : list (option DashboardEnclosure) :=
  if decide (i < length l)%nat then <[i := Some v]> l
  else l ++ replicate (i - length l) None ++ [Some v].

(** [a[i] = v]; a non-negative [i] (below 2^32 - 1) is an array index,
    any other key names an ordinary property. *)
Definition array_set (a : EnclosureArray) (i : Z) (v : DashboardEnclosure)
    : EnclosureArray :=
  if decide (0 ≤ i) then {| items := items_set (items a) (Z.to_nat i) v; props := props a |}
  else {| items := items a; props := <[i := v]> (props a) |}.

(** [l.findIndex((enclosure) => enclosure.id === id)], counting from [i]:
    [-1] when no element matches; reading [.id] of an [undefined] element
    throws. *)
Fixpoint findIndex_from (l : list (option DashboardEnclosure)) (wanted : string)
    (i : Z) : option Z :=
  match l with
  | [] => Some (-1)
  | None :: _ => None
  | Some enclosure :: rest =>
      if decide (id enclosure = Some wanted) then Some i
      else findIndex_from rest wanted (i + 1)
  end.

Definition findIndex (a : EnclosureArray) (wanted : string) : Js.M Z :=
  match findIndex_from (items a) wanted 0 with
  | Some index => Js.ret index
  | None => Js.throw
  end.

(** ** [EnclosureState] and [initialState] *)

Record EnclosureState := {
  enclosures : EnclosureArray;
  isLoading : bool;
  selectedEnclosureIndex : Z;
  selectedSlot : option DashboardEnclosureSlot;
  selectedView : EnclosureView;
  selectedSide : option EnclosureSide;
}.

(** The module-level constant object; it lives at address 0, and every
    [setState(initialState)] installs this very object. *)
Definition initialState : Js.Obj EnclosureState :=
  Js.mkObj 0%nat
    {| isLoading := true;
       enclosures := empty_array;
       selectedEnclosureIndex := 0;
       selectedSlot := None;
       selectedView := Pools;
       selectedSide := None |}.

(** ** The updaters of [EnclosureStore]

    An updater receives the current state object and returns the state
    object to install: the one it was given, or a new object literal. *)

Definition selectEnclosure (state : Js.Obj EnclosureState) (wanted : string)
    : Js.M (Js.Obj EnclosureState) :=
  index ← findIndex (enclosures (Js.val state)) wanted;
  if decide (index = selectedEnclosureIndex (Js.val state)) then Js.ret state
  else
    Js.new {| enclosures := enclosures (Js.val state);
              isLoading := isLoading (Js.val state);
              selectedEnclosureIndex := index;
              selectedSlot := None;
              selectedSide := None;
              selectedView := Pools |}.

(** [{ ...enclosure, label }] *)
Definition with_label (enclosure : option DashboardEnclosure) (new_label : string)
    : DashboardEnclosure :=
  match enclosure with
  | Some e => {| id := id e; label := Some new_label; elements := elements e |}
  | None => {| id := None; label := Some new_label; elements := None |}
  end.

Definition renameSelectedEnclosure (state : Js.Obj EnclosureState) (new_label : string)
    : Js.M (Js.Obj EnclosureState) :=
  let copy := spread_array (enclosures (Js.val state)) in
  let index := selectedEnclosureIndex (Js.val state) in
  let renamed := array_set copy index (with_label (array_get copy index) new_label) in
  Js.new {| enclosures := renamed;
            isLoading := isLoading (Js.val state);
            selectedEnclosureIndex := selectedEnclosureIndex (Js.val state);
            selectedSlot := selectedSlot (Js.val state);
            selectedView := selectedView (Js.val state);
            selectedSide := selectedSide (Js.val state) |}.

Definition selectSlot (state : Js.Obj EnclosureState) (slot : option DashboardEnclosureSlot)
    : Js.M (Js.Obj EnclosureState) :=
  Js.new {| enclosures := enclosures (Js.val state);
            isLoading := isLoading (Js.val state);
            selectedEnclosureIndex := selectedEnclosureIndex (Js.val state);
            selectedSlot := slot;
            selectedView := selectedView (Js.val state);
            selectedSide := selectedSide (Js.val state) |}.

Definition selectView (state : Js.Obj EnclosureState) (view : EnclosureView)
    : Js.M (Js.Obj EnclosureState) :=
  Js.new {| enclosures := enclosures (Js.val state);
            isLoading := isLoading (Js.val state);
            selectedEnclosureIndex := selectedEnclosureIndex (Js.val state);
            selectedSlot := selectedSlot (Js.val state);
            selectedView := view;
            selectedSide := selectedSide (Js.val state) |}.

Definition selectSide (state : Js.Obj EnclosureState) (side : option EnclosureSide)
    : Js.M (Js.Obj EnclosureState) :=
  if decide (side = selectedSide (Js.val state)) then Js.ret state
  else
    Js.new {| enclosures := enclosures (Js.val state);
              isLoading := isLoading (Js.val state);
              selectedEnclosureIndex := selectedEnclosureIndex (Js.val state);
              selectedSide := side;
              selectedSlot := None;
              selectedView := selectedView (Js.val state) |}.

(** ** The store: [ComponentStore] state and the injected collaborators *)

(** An opaque failure of a remote call. *)
Definition ApiError := string.

(** The two effects that issue the remote call
    ['webui.enclosure.dashboard']. *)
Inductive Effect := Initiate | Update.

#[global] Instance Effect_eq_dec : EqDecision Effect.
Proof. solve_decision. Defined.

(** The store instance together with what it has done to its
    collaborators.
    - [heap]: the next free object address;
    - [state]: the state object [ComponentStore] currently holds;
    - [disksUpdateSubscriptionId]: the private field, [undefined] at first;
    - [triggers]: the [diskUpdatesTrigger$] subjects (by address) that carry
      the subscription [() => this.update()];
    - [ws]: the remote calls issued so far, newest first, by issuing effect;
    - [disksUpdateService]: the notifier's registry, subscription id to
      subject;
    - [errorHandler]: the errors handed to the error handler, newest first. *)
Record EnclosureStore := {
  heap : Js.ref;
  state : Js.Obj EnclosureState;
  disksUpdateSubscriptionId : option string;
  triggers : list Js.ref;
  ws : list Effect;
  disksUpdateService : gmap string Js.ref;
  errorHandler : list ApiError;
}.

Definition install (store : EnclosureStore) (new_state : Js.Obj EnclosureState)
    (new_heap : Js.ref) : EnclosureStore :=
  {| heap := new_heap;
     state := new_state;
     disksUpdateSubscriptionId := disksUpdateSubscriptionId store;
     triggers := triggers store;
     ws := ws store;
     disksUpdateService := disksUpdateService store;
     errorHandler := errorHandler store |}.

(** [super(initialState)]: a store whose notifier registry is [registry];
    addresses below [free] are taken. *)
Definition construct (registry : gmap string Js.ref) (free : Js.ref) : EnclosureStore :=
  {| heap := free;
     state := initialState;
     disksUpdateSubscriptionId := None;
     triggers := [];
     ws := [];
     disksUpdateService := registry;
     errorHandler := [] |}.

(** [this.updater(fn)] applied to [value]: the state object becomes the one
    [fn] returns; when [fn] throws, the state is left as it was. *)
Definition updater {V} (fn : Js.Obj EnclosureState → V → Js.M (Js.Obj EnclosureState))
    (value : V) (store : EnclosureStore) : EnclosureStore :=
  match fn (state store) value (heap store) with
  | Some (new_state, new_heap) => install store new_state new_heap
  | None => store
  end.

(** [this.setState(obj)] *)
Definition setState (obj : Js.Obj EnclosureState) (store : EnclosureStore) : EnclosureStore :=
  install store obj (heap store).

(** [this.patchState({ enclosures })]: [{ ...state, enclosures }] *)
Definition patchState_enclosures (new_enclosures : EnclosureArray)
    : EnclosureStore → EnclosureStore :=
  updater (λ st (_ : unit),
    Js.new {| enclosures := new_enclosures;
              isLoading := isLoading (Js.val st);
              selectedEnclosureIndex := selectedEnclosureIndex (Js.val st);
              selectedSlot := selectedSlot (Js.val st);
              selectedView := selectedView (Js.val st);
              selectedSide := selectedSide (Js.val st) |}) ().

(** [this.patchState({ isLoading })]: [{ ...state, isLoading }] *)
Definition patchState_isLoading (loading : bool) : EnclosureStore → EnclosureStore :=
  updater (λ st (_ : unit),
    Js.new {| enclosures := enclosures (Js.val st);
              isLoading := loading;
              selectedEnclosureIndex := selectedEnclosureIndex (Js.val st);
              selectedSlot := selectedSlot (Js.val st);
              selectedView := selectedView (Js.val st);
              selectedSide := selectedSide (Js.val st) |}) ().

(** ** The response pipelines of [initiate] and [update] *)

(** Modelled from the spec: the remote call gateway returns a single
    asynchronous result, a success value or a failure. *)
Inductive CallResult :=
| Succeeds (payload : list DashboardEnclosure)
| Fails (error : ApiError).

Inductive Notification :=
| Next (payload : list DashboardEnclosure)
| Error (error : ApiError)
| Complete.

(** What the observable of [ws.call] emits. *)
Definition ws_call (result : CallResult) : list Notification :=
  match result with
  | Succeeds payload => [Next payload; Complete]
  | Fails error => [Error error]
  end.

(** An operator maps the notifications of its source to those it passes
    on, and runs its side effects on the store. *)
Definition Operator := list Notification → EnclosureStore → list Notification * EnclosureStore.

(** [tap(f)]: runs [f] on every value, passes everything on. *)
Definition tap (f : list DashboardEnclosure → EnclosureStore → EnclosureStore) : Operator :=
  λ source store,
    (source,
     foldl (λ st n, match n with Next payload => f payload st | _ => st end) store source).

Definition report (error : ApiError) (store : EnclosureStore) : EnclosureStore :=
  {| heap := heap store;
     state := state store;
     disksUpdateSubscriptionId := disksUpdateSubscriptionId store;
     triggers := triggers store;
     ws := ws store;
     disksUpdateService := disksUpdateService store;
     errorHandler := error :: errorHandler store |}.

(** Modelled from the spec: [errorHandler.catchError()] routes a failure to
    the error handler, which reports it; the failure is not fatal, the
    stream completes instead. *)
Fixpoint catchError (source : list Notification) (store : EnclosureStore)
    : list Notification * EnclosureStore :=
  match source with
  | [] => ([], store)
  | Error error :: _ => ([Complete], report error store)
  | n :: rest => let '(out, store') := catchError rest store in (n :: out, store')
  end.

(** [delay(ms)]: shifts the values in time; what is emitted, and its order,
    is unchanged. *)
Definition delay (ms : nat) : Operator := λ source store, (source, store).

Definition terminated (source : list Notification) : bool :=
  existsb (λ n, match n with Next _ => false | _ => true end) source.

(** [finalize(f)]: runs [f] once the source has completed or failed. *)
Definition finalize (f : EnclosureStore → EnclosureStore) : Operator :=
  λ source store, (source, if terminated source then f store else store).

(** [source.pipe(op1, op2, ...)] *)
Definition pipe (ops : list Operator) : Operator :=
  λ source store, foldl (λ '(ns, st) (op : Operator), op ns st) (source, store) ops.

Definition issue (effect : Effect) (store : EnclosureStore) : EnclosureStore :=
  {| heap := heap store;
     state := state store;
     disksUpdateSubscriptionId := disksUpdateSubscriptionId store;
     triggers := triggers store;
     ws := effect :: ws store;
     disksUpdateService := disksUpdateService store;
     errorHandler := errorHandler store |}.

(** [initiate()], the synchronous part: the reset, then the remote call is
    issued. *)
Definition initiate_call (store : EnclosureStore) : EnclosureStore :=
  issue Initiate (setState initialState store).

(** [initiate()], the part that runs when the remote call [result] is in. *)
Definition initiate_response (result : CallResult) (store : EnclosureStore) : EnclosureStore :=
  (pipe [tap (λ enclosures, patchState_enclosures (array_of enclosures));
         catchError;
         delay 100;
         finalize (patchState_isLoading false)]
        (ws_call result) store).2.

(** [initiate()] with nothing else happening until the call is settled. *)
Definition initiate (result : CallResult) (store : EnclosureStore) : EnclosureStore :=
  initiate_response result (initiate_call store).

Definition update_call (store : EnclosureStore) : EnclosureStore := issue Update store.

Definition update_response (result : CallResult) (store : EnclosureStore) : EnclosureStore :=
  (pipe [tap (λ enclosures, patchState_enclosures (array_of enclosures));
         catchError]
        (ws_call result) store).2.

(** [update()] with nothing else happening until the call is settled. *)
Definition update (result : CallResult) (store : EnclosureStore) : EnclosureStore :=
  update_response result (update_call store).

(** ** The disk-update listener *)

(** Modelled from the spec: [disksUpdateService.addSubscriber(stream,
    replayLatest)] stores [stream] in the notifier's registry under the
    subscription id it returns, here [fresh_id]. *)
Definition addSubscriber (fresh_id : string) (stream : Js.ref) (store : EnclosureStore)
    : EnclosureStore :=
  {| heap := heap store;
     state := state store;
     disksUpdateSubscriptionId := disksUpdateSubscriptionId store;
     triggers := triggers store;
     ws := ws store;
     disksUpdateService := <[fresh_id := stream]> (disksUpdateService store);
     errorHandler := errorHandler store |}.

(** Modelled from the spec: [disksUpdateService.removeSubscriber(id)]
    removes the stream stored under [id]; an absent id is tolerated. *)
Definition removeSubscriber (subscription : option string) (store : EnclosureStore)
    : EnclosureStore :=
  match subscription with
  | Some key =>
      {| heap := heap store;
         state := state store;
         disksUpdateSubscriptionId := disksUpdateSubscriptionId store;
         triggers := triggers store;
         ws := ws store;
         disksUpdateService := delete key (disksUpdateService store);
         errorHandler := errorHandler store |}
  | None => store
  end.

(** [addListenerForDiskUpdates()]: unless a subscription id is stored, a
    new subject is created, registered with the notifier, its id is stored,
    and [() => this.update()] is subscribed to it.  [fresh_id] is the id
    the notifier returns when it is asked. *)
Definition addListenerForDiskUpdates (fresh_id : string) (store : EnclosureStore)
    : EnclosureStore :=
  if negb (Js.truthy (disksUpdateSubscriptionId store)) then
    let diskUpdatesTrigger := heap store in
    let registered := addSubscriber fresh_id diskUpdatesTrigger store in
    {| heap := S (heap store);
       state := state store;
       disksUpdateSubscriptionId := Some fresh_id;
       triggers := diskUpdatesTrigger :: triggers store;
       ws := ws store;
       disksUpdateService := disksUpdateService registered;
       errorHandler := errorHandler store |}
  else store.

(** [removeListenerForDiskUpdates()]; the stored id is not cleared. *)
Definition removeListenerForDiskUpdates (store : EnclosureStore) : EnclosureStore :=
  removeSubscriber (disksUpdateSubscriptionId store) store.

(** Modelled from the spec: the notifier fires by sending the disks to
    every registered stream; a stream of this store then runs its
    subscription [() => this.update()]. *)
Definition notify (subject : Js.ref) (store : EnclosureStore) : EnclosureStore :=
  foldr (λ trigger st, if decide (trigger = subject) then update_call st else st)
        store (triggers store).

Definition disks_updated (store : EnclosureStore) : EnclosureStore :=
  foldr notify store (map_to_list (disksUpdateService store)).*2.

(** The number of [update()] calls made so far. *)
Definition update_calls (store : EnclosureStore) : nat :=
  length (filter (λ e, e = Update) (ws store)).

(** ** State transitions and reachable states *)

(** Every change of the store's state is one of these steps: the reset of
    [initiate], the arrival of a payload ([initiate] or [update]), the
    cleanup of [initiate], or one of the updaters. *)
Inductive Step :=
| Reset
| Loaded (payload : list DashboardEnclosure)
| Settled
| SelectEnclosure (wanted : string)
| RenameSelectedEnclosure (new_label : string)
| SelectSlot (slot : option DashboardEnclosureSlot)
| SelectView (view : EnclosureView)
| SelectSide (side : option EnclosureSide).

Definition step (store : EnclosureStore) (s : Step) : EnclosureStore :=
  match s with
  | Reset => setState initialState store
  | Loaded payload => patchState_enclosures (array_of payload) store
  | Settled => patchState_isLoading false store
  | SelectEnclosure wanted => updater selectEnclosure wanted store
  | RenameSelectedEnclosure new_label => updater renameSelectedEnclosure new_label store
  | SelectSlot slot => updater selectSlot slot store
  | SelectView view => updater selectView view store
  | SelectSide side => updater selectSide side store
  end.

Definition run (steps : list Step) (store : EnclosureStore) : EnclosureStore :=
  foldl step store steps.

(** The states a store constructed with [super(initialState)] can reach. *)
Definition reachable (st : EnclosureState) : Prop :=
  ∃ registry free steps, Js.val (state (run steps (construct registry free))) = st.

(** [selectedEnclosureIndex] is a valid index into [enclosures], or 0 on
    an empty sequence. *)
Definition index_valid (st : EnclosureState) : Prop :=
  (0 ≤ selectedEnclosureIndex st < Z.of_nat (length (items (enclosures st))))
  ∨ (items (enclosures st) = [] ∧ selectedEnclosureIndex st = 0).

#[global] Instance index_valid_dec st : Decision (index_valid st).
Proof. unfold index_valid. apply _. Defined.

(** ** Read-only projections *)

(** [state.enclosures[state.selectedEnclosureIndex]] *)
Definition selectedEnclosure (st : EnclosureState) : option DashboardEnclosure :=
  array_get (enclosures st) (selectedEnclosureIndex st).

(** [Object.values(selectedEnclosure()?.elements?.[ArrayDeviceSlot] || {})] *)
Definition selectedEnclosureSlots (st : EnclosureState) : list DashboardEnclosureSlot :=
  let slots : list (N * DashboardEnclosureSlot) :=
    match selectedEnclosure st with
    | Some enclosure =>
        match elements enclosure with
        | Some elems => default [] (ArrayDeviceSlot elems)
        | None => []
        end
    | None => []
    end in
  slots.*2.

(** ** The tile view: [poolsInfo] *)

(** A [Map] with string keys, as the list of its entries in insertion
    order.  [set] on a key that is present replaces the value and leaves
    the entry where it is; on a new key it appends the entry. *)
Fixpoint Map_set {V} (m : list (string * V)) (key : string) (value : V)
    : list (string * V) :=
  match m with
  | [] => [(key, value)]
  | (k, v) :: rest =>
      if decide (k = key) then (k, value) :: rest
      else (k, v) :: Map_set rest key value
  end.

(** [new Map(entries)]: the entries are [set] one after the other. *)
Definition new_Map {V} (entries : list (string * V)) : list (string * V) :=
  foldl (λ m '(key, value), Map_set m key value) [] entries.

(** [map.values()] *)
Definition Map_values {V} (m : list (string * V)) : list V := m.*2.

(** [[slot.pool_info.pool_name, slot.pool_info]]; reading [pool_name] of
    [null] throws. *)
Definition pool_entry (slot : DashboardEnclosureSlot)
    : option (string * EnclosureSlotPoolInfo) :=
  match pool_info slot with
  | Some info => Some (pool_name info, info)
  | None => None
  end.

(** [poolsInfo]; [None] stands for an exception. *)
Definition poolsInfo (st : EnclosureState) : option (list EnclosureSlotPoolInfo) :=
  let slots := selectedEnclosureSlots st in
  entries ← mapM pool_entry (filter (λ slot, is_Some (pool_info slot)) slots);
  Some (Map_values (new_Map entries)).

(** The pool descriptors of the slots that have one, in slot order. *)
Definition pool_infos (slots : list DashboardEnclosureSlot) : list EnclosureSlotPoolInfo :=
  omap pool_info slots.

(** Deduplication by pool name in which the first descriptor of every pool
    is kept. *)
Fixpoint first_per_pool (infos : list EnclosureSlotPoolInfo) : list EnclosureSlotPoolInfo :=
  match infos with
  | [] => []
  | info :: rest =>
      info :: filter (λ other, pool_name other ≠ pool_name info) (first_per_pool rest)
  end.

(** Deduplication by pool name in which every pool stands where its first
    descriptor stood and carries its last descriptor. *)
Fixpoint last_per_pool (infos : list EnclosureSlotPoolInfo) : list EnclosureSlotPoolInfo :=
  match infos with
  | [] => []
  | info :: rest =>
      default info (last (filter (λ other, pool_name other = pool_name info) rest))
      :: filter (λ other, pool_name other ≠ pool_name info) (last_per_pool rest)
  end.

(** [Map.set] read on the descriptors themselves, each keyed by its pool
    name. *)
Fixpoint set_pool (infos : list EnclosureSlotPoolInfo) (info : EnclosureSlotPoolInfo)
    : list EnclosureSlotPoolInfo :=
  match infos with
  | [] => [info]
  | other :: rest =>
      if decide (pool_name other = pool_name info) then info :: rest
      else other :: set_pool rest info
  end.

Definition keyed (info : EnclosureSlotPoolInfo) : string * EnclosureSlotPoolInfo :=
  (pool_name info, info).

(** ** The CPU gauge: [cpuAvg] *)

Module Gauge.

Local Open Scope string_scope.
Local Open Scope Z_scope.

(** The result of [parseInt]: [NaN], or an integer (the sign of a zero is
    not kept). *)
Inductive ParsedInt :=
| NaN
| Int (value : Z).

Record GaugeConfig := {
  label : bool;
  data : string * ParsedInt;
  units : string;
  diameter : Z;
  fontSize : Z;
  max : Z;
  subtitle : string;
}.

(** The pushed sample, [update.fields.cpu]: [average.usage] is a binary64
    number. *)
Record CpuAverage := { usage : spec_float }.
Record CpuData := { average : CpuAverage }.

(** *** Decimal digits *)

Definition digit_char (d : Z) : ascii := ascii_of_N (48 + Z.to_N d).

(** The decimal digits of [n ≥ 0], most significant first. *)
Fixpoint decimal_digits (fuel : nat) (n : Z) : string :=
  match fuel with
  | O => EmptyString
  | S fuel' =>
      if n <? 10 then String (digit_char n) EmptyString
      else decimal_digits fuel' (n / 10) +:+ String (digit_char (n mod 10)) EmptyString
  end.

Definition decimal (n : Z) : string := decimal_digits (S (Z.to_nat (Z.log2 n))) n.

Fixpoint zeros (count : nat) : string :=
  match count with
  | O => EmptyString
  | S count' => String "0" (zeros count')
  end.

(** *** [Number.prototype.toFixed] *)

(** The integer [n] for which [n / 10^f - m * 2^e] is as close to zero as
    possible, the larger one when there are two. *)
Definition nearest (m : positive) (e : Z) (f : nat) : Z :=
  if 0 <=? e then Z.pos m * 10 ^ Z.of_nat f * 2 ^ e
  else (2 * (Z.pos m * 10 ^ Z.of_nat f) + 2 ^ (- e)) / (2 * 2 ^ (- e)).

(** [m * 2^e < 10^21] *)
Definition below_1e21 (m : positive) (e : Z) : bool :=
  if 0 <=? e then Z.pos m * 2 ^ e <? 10 ^ 21
  else Z.pos m <? 10 ^ 21 * 2 ^ (- e).

(** The digits of [n] with a decimal point before the last [f] of them,
    padded with zeros on the left to [f + 1] digits. *)
Definition fixed_digits (n : Z) (f : nat) : string :=
  let m := decimal n in
  if decide (f = 0%nat) then m
  else
    let k := String.length m in
    let m := if decide (k ≤ f)%nat then zeros (f + 1 - k) +:+ m else m in
    let k := if decide (k ≤ f)%nat then (f + 1)%nat else k in
    substring 0 (k - f) m +:+ "." +:+ substring (k - f) f m.

Section Builtins.

(** [Number::toString], which [toFixed] falls back to for a magnitude of
    [10^21] or more (exponent notation). *)
Variable Number_toString : spec_float → string.

(** [translate.instant] *)
Variable translate_instant : string → string.

(** [x.toFixed(fractionDigits)] *)
Definition toFixed (x : spec_float) (fractionDigits : nat) : string :=
  match x with
  | S754_nan => "NaN"
  | S754_infinity false => "Infinity"
  | S754_infinity true => "-Infinity"
  | S754_zero _ => fixed_digits 0 fractionDigits
  | S754_finite negative m e =>
      if below_1e21 m e then
        (if negative then "-" else EmptyString) +:+ fixed_digits (nearest m e fractionDigits) fractionDigits
      else Number_toString x
  end.

(** *** [parseInt] *)

Definition StrWhiteSpaceChar (c : ascii) : bool :=
  bool_decide (c ∈ [" "; "009"; "010"; "011"; "012"; "013"]%char).

Fixpoint trim_start (s : string) : string :=
  match s with
  | String c rest => if StrWhiteSpaceChar c then trim_start rest else s
  | EmptyString => s
  end.

(** The value of a digit or letter: [0-9], then [a-z] or [A-Z] from 10. *)
Definition digit_value (c : ascii) : option Z :=
  let code := Z.of_N (N_of_ascii c) in
  if (48 <=? code) && (code <=? 57) then Some (code - 48)
  else if (97 <=? code) && (code <=? 122) then Some (code - 87)
  else if (65 <=? code) && (code <=? 90) then Some (code - 55)
  else None.

(** Reads the longest prefix of radix-[R] digits; [acc] is the value of the
    digits read so far, [NaN] while there are none. *)
Fixpoint parse_digits (R : Z) (s : string) (acc : ParsedInt) : ParsedInt :=
  match s with
  | String c rest =>
      match digit_value c with
      | Some d =>
          if d <? R then
            parse_digits R rest (Int (match acc with Int a => a | NaN => 0 end * R + d))
          else acc
      | None => acc
      end
  | EmptyString => acc
  end.

Definition negate (negative : bool) (v : ParsedInt) : ParsedInt :=
  match v with
  | Int a => Int (if negative then - a else a)
  | NaN => NaN
  end.

(** [parseInt(s)], no radix given: leading white space is skipped, a sign
    is read, a prefix [0x] or [0X] selects radix 16, and the digits up to
    the first character that is none are read. *)
Definition parseInt (s : string) : ParsedInt :=
  let s := trim_start s in
  let '(negative, s) :=
    match s with
    | String "-" rest => (true, rest)
    | String "+" rest => (false, rest)
    | _ => (false, s)
    end in
  let '(R, s) :=
    match s with
    | String "0" (String "x" rest) => (16, rest)
    | String "0" (String "X" rest) => (16, rest)
    | _ => (10, s)
    end in
  negate negative (parse_digits R s NaN).

(** [cpuAvg] for the sample [cpuData]. *)
Definition cpuAvg (cpuData : CpuData) : GaugeConfig :=
  let data := ("Load", parseInt (toFixed (usage (average cpuData)) 1)) in
  {| label := false;
     data := data;
     units := "%";
     diameter := 136;
     fontSize := 28;
     max := 100;
     subtitle := translate_instant "Avg Usage" |}.

End Builtins.

(** The exact value of a finite binary64 number. *)
Definition value_of (x : spec_float) : Q :=
  match x with
  | S754_finite negative m e =>
      let magnitude := if 0 <=? e then inject_Z (Z.pos m * 2 ^ e)
                       else Qmake (Z.pos m) (Z.to_pos (2 ^ (- e))) in
      if negative then Qopp magnitude else magnitude
  | _ => 0%Q
  end.

(** [x] rounded to one decimal place, ties away from zero: the value
    [toFixed(1)] writes. *)
Definition rounded_to_one_decimal (x : spec_float) : Q :=
  match x with
  | S754_finite negative m e =>
      let tenths := nearest m e 1 in
      Qmake (if negative then - tenths else tenths) 10
  | _ => 0%Q
  end.

(** The integer part of a rational, towards zero. *)
Definition Qtruncate (q : Q) : Z := Z.quot (Qnum q) (Z.pos (Qden q)).

(** A string of decimal digits only. *)
Fixpoint digits_only (s : string) : Prop :=
  match s with
  | EmptyString => True
  | String c rest => (∃ d, 0 ≤ d < 10 ∧ c = digit_char d) ∧ digits_only rest
  end.

Definition magnitude_below_1e21 (x : spec_float) : bool :=
  match x with
  | S754_finite _ m e => below_1e21 m e
  | S754_zero _ => true
  | _ => false
  end.

(** [Number.isFinite(x)]: neither [NaN] nor an infinity. *)
Definition Number_isFinite (x : spec_float) : bool :=
  match x with
  | S754_finite _ _ _ | S754_zero _ => true
  | _ => false
  end.

End Gauge.

(** ** Sample data *)

Module Sample.

Definition enclosure_a : DashboardEnclosure :=
  {| id := Some "a"; label := Some "Shelf A"; elements := None |}.

Definition enclosure_b : DashboardEnclosure :=
  {| id := Some "b"; label := Some "Shelf B"; elements := None |}.

(** A store right after construction. *)
Definition fresh : EnclosureStore := construct ∅ 1%nat.

(** A store that has loaded two enclosures and selected the second. *)
Definition loaded : EnclosureStore :=
  run [Reset; Loaded [enclosure_a; enclosure_b]; Settled; SelectEnclosure "b";
       SelectSide (Some Rear)] fresh.

(** A store in which no enclosure matched the selected id. *)
Definition unmatched : EnclosureStore :=
  run [Reset; Loaded [enclosure_a; enclosure_b]; Settled; SelectEnclosure "c"] fresh.

(** Two disks of the pool [tank], the second one faulted. *)
Definition tank_online : EnclosureSlotPoolInfo :=
  {| pool_name := "tank"; disk_status := Online |}.

Definition tank_faulted : EnclosureSlotPoolInfo :=
  {| pool_name := "tank"; disk_status := Faulted |}.

Definition shelf : DashboardEnclosure :=
  {| id := Some "shelf";
     label := Some "Shelf";
     elements := Some {| ArrayDeviceSlot := Some
       [(1%N, {| position := 1; pool_info := Some tank_online |});
        (2%N, {| position := 2; pool_info := None |});
        (3%N, {| position := 3; pool_info := Some tank_faulted |})] |} |}.

Definition shelf_selected : EnclosureState :=
  Js.val (state (run [Reset; Loaded [shelf]; Settled] fresh)).

(** The binary64 number 12.5. *)
Definition usage_12_5 : spec_float := S754_finite false 7036874417766400 (-49).

Definition cpu_12_5 : Gauge.CpuData :=
  {| Gauge.average := {| Gauge.usage := usage_12_5 |} |}.

Definition no_exponent_notation : spec_float → string := λ _, EmptyString.

Definition untranslated : string → string := λ key, key.

End Sample.

(** A reload strands the selection when it arrives while a positive index
    is selected that is at or past the end of the reloaded sequence. *)
Definition strands (store : EnclosureStore) (s : Step) : Prop :=
  match s with
  | Loaded payload =>
      0 < selectedEnclosureIndex (Js.val (state store))
      ∧ Z.of_nat (length payload) ≤ selectedEnclosureIndex (Js.val (state store))
  | _ => False
  end.

(** In a run, no reload strands the selection. *)
Fixpoint never_strands (steps : list Step) (store : EnclosureStore) : Prop :=
  match steps with
  | [] => True
  | s :: rest => ¬ strands store s ∧ never_strands rest (step store s)
  end.

(** A step that leaves [enclosures] as it is. *)
Definition keeps_enclosures (s : Step) : Prop :=
  match s with
  | Loaded _ | RenameSelectedEnclosure _ => False
  | _ => True
  end.

(** ** The tile view: the other projections *)

(** [unhealthyPoolsInfo]: the entries of [poolsInfo] whose disk status is
    not [Online]. *)
Definition unhealthyPoolsInfo (st : EnclosureState) : option (list EnclosureSlotPoolInfo) :=
  infos ← poolsInfo st;
  Some (filter (λ info, disk_status info ≠ Online) infos).

(** [failedDisks]: the slots with
    [slot.pool_info?.disk_status === EnclosureDiskStatus.Faulted]. *)
Definition failedDisks (st : EnclosureState) : list DashboardEnclosureSlot :=
  filter (λ slot, disk_status <$> pool_info slot = Some Faulted) (selectedEnclosureSlots st).

(** [setCurrentView(viewName)] *)
Definition setCurrentView (viewName : EnclosureView) : EnclosureStore → EnclosureStore :=
  updater selectView viewName.

Section Expanders.

(** The entries of the SAS-expander collection, and the member
    [elements[EnclosureElementType.SasExpander]] of an [elements] object. *)
Variable Expander : Type.
Variable SasExpander : EnclosureElements → option (list (N * Expander)).

(** [expanders]: [selectedEnclosure()] is read without [?.], so the
    projection throws ([None]) when no enclosure is selected. *)
Definition expanders (st : EnclosureState) : option (list Expander) :=
  match selectedEnclosure st with
  | Some enclosure =>
      Some (match elements enclosure with
            | Some elems => default [] (SasExpander elems)
            | None => []
            end).*2
  | None => None
  end.

End Expanders.

(** ** The effects at run time: [switchMap]

    Each of [initiate] and [update] is an effect of its own: a call of the
    effect passes through the operators before [switchMap], and [switchMap]
    then unsubscribes from the inner observable of the previous call, if it
    is still subscribed, and subscribes to a new one.  A remote call is
    named by its position in the log [ws] of issued calls. *)

(** What an effect is subscribed to: the remote call, and whether its
    payload has arrived already (and waits in [delay]). *)
Record Inner := {
  call : nat;
  arrived : bool;
}.

Record Runtime := {
  store : EnclosureStore;
  initiate_inner : option Inner;
  update_inner : option Inner;
}.

(** The updaters a user of the store calls. *)
Inductive Operation :=
| DoSelectEnclosure (wanted : string)
| DoRenameSelectedEnclosure (new_label : string)
| DoSelectSlot (slot : option DashboardEnclosureSlot)
| DoSelectView (view : EnclosureView)
| DoSelectSide (side : option EnclosureSide).

Definition operation_step (op : Operation) : Step :=
  match op with
  | DoSelectEnclosure wanted => SelectEnclosure wanted
  | DoRenameSelectedEnclosure new_label => RenameSelectedEnclosure new_label
  | DoSelectSlot slot => SelectSlot slot
  | DoSelectView view => SelectView view
  | DoSelectSide side => SelectSide side
  end.

Inductive Event :=
| InitiateCalled
| InitiateArrived (remote : nat) (result : CallResult)
| InitiateDelayElapsed (remote : nat)
| UpdateCalled
| UpdateArrived (remote : nat) (result : CallResult)
| Called (op : Operation).

(** The name the next remote call gets. *)
Definition next_call (st : EnclosureStore) : nat := length (ws st).

Definition handle (rt : Runtime) (ev : Event) : Runtime :=
  match ev with
  | InitiateCalled =>
      (* tap(() => this.setState(initialState)) *)
      let reset := setState initialState (store rt) in
      (* switchMap drops the previous inner observable; its finalize runs *)
      let dropped :=
        match initiate_inner rt with
        | Some _ => patchState_isLoading false reset
        | None => reset
        end in
      {| store := issue Initiate dropped;
         initiate_inner := Some {| call := next_call dropped; arrived := false |};
         update_inner := update_inner rt |}
  | InitiateArrived remote result =>
      match initiate_inner rt with
      | Some inner =>
          if decide (call inner = remote ∧ arrived inner = false) then
            match result with
            | Succeeds payload =>
                (* tap patches; the value and the completion wait in delay(100) *)
                {| store := patchState_enclosures (array_of payload) (store rt);
                   initiate_inner := Some {| call := remote; arrived := true |};
                   update_inner := update_inner rt |}
            | Fails _ =>
                (* the error handler completes the stream; nothing waits *)
                {| store := initiate_response result (store rt);
                   initiate_inner := None;
                   update_inner := update_inner rt |}
            end
          else rt
      | None => rt
      end
  | InitiateDelayElapsed remote =>
      match initiate_inner rt with
      | Some inner =>
          if decide (call inner = remote ∧ arrived inner = true) then
            {| store := patchState_isLoading false (store rt);
               initiate_inner := None;
               update_inner := update_inner rt |}
          else rt
      | None => rt
      end
  | UpdateCalled =>
      {| store := update_call (store rt);
         initiate_inner := initiate_inner rt;
         update_inner := Some {| call := next_call (store rt); arrived := false |} |}
  | UpdateArrived remote result =>
      match update_inner rt with
      | Some inner =>
          if decide (call inner = remote) then
            {| store := update_response result (store rt);
               initiate_inner := initiate_inner rt;
               update_inner := None |}
          else rt
      | None => rt
      end
  | Called op =>
      {| store := step (store rt) (operation_step op);
         initiate_inner := initiate_inner rt;
         update_inner := update_inner rt |}
  end.

Definition play (events : list Event) (rt : Runtime) : Runtime := foldl handle rt events.

(** A store right after construction, no call in flight. *)
Definition boot (registry : gmap string Js.ref) (free : Js.ref) : Runtime :=
  {| store := construct registry free; initiate_inner := None; update_inner := None |}.

(** What holds of the effects after any sequence of events. *)
Definition settled_or_in_flight (rt : Runtime) : Prop :=
  (isLoading (Js.val (state (store rt))) = true →
   initiate_inner rt ≠ None ∨ Initiate ∉ ws (store rt))
  ∧ (∀ inner, initiate_inner rt = Some inner → (call inner < next_call (store rt))%nat)
  ∧ (∀ inner, update_inner rt = Some inner → (call inner < next_call (store rt))%nat).

(** ** More sample data *)

Module Scenario.

Definition enclosure_c : DashboardEnclosure :=
  {| id := Some "c"; label := Some "Shelf C"; elements := None |}.

(** Three enclosures loaded, the third selected, then a reload that
    delivers no enclosure. *)
Definition emptied : EnclosureStore :=
  run [Reset; Loaded [Sample.enclosure_a; Sample.enclosure_b; enclosure_c]; Settled;
       SelectEnclosure "c"; Loaded []] Sample.fresh.

(** The shelf of two [tank] disks, selected, with its side chosen. *)
Definition shelf_store : EnclosureStore :=
  run [Reset; Loaded [Sample.shelf]; Settled] Sample.fresh.

(** The binary64 numbers 99.95 (the nearest one, slightly above) and 42. *)
Definition usage_99_95 : spec_float := S754_finite false 7033355980557517 (-46).
Definition usage_42 : spec_float := S754_finite false 5910974510923776 (-47).

Definition cpu_of (x : spec_float) : Gauge.CpuData :=
  {| Gauge.average := {| Gauge.usage := x |} |}.

End Scenario.

#[global] Instance keeps_enclosures_dec s : Decision (keeps_enclosures s).
Proof. destruct s; simpl; apply _. Defined.

#[global] Instance strands_dec store s : Decision (strands store s).
Proof. destruct s; simpl; apply _. Defined.

#[global] Instance never_strands_dec steps store : Decision (never_strands steps store).
Proof.
  revert store. induction steps as [|s steps IH]; intros store; simpl; apply _.
Defined.

(** * Properties *)

(** ** Lookup by id *)

Lemma findIndex_from_bounds l wanted i index :
  findIndex_from l wanted i = Some index →
  index = -1 ∨ i ≤ index < i + Z.of_nat (length l).
Proof.
  revert i. induction l as [|[e|] l IH]; intros i; simpl.
  - intros [= <-]. by left.
  - case_decide.
    + intros [= <-]. right. lia.
    + intros H'. destruct (IH _ H') as [?|?]; [by left|right; lia].
  - done.
Qed.

(** What [findIndex] finds: [-1] when no enclosure has the id, else the
    position of the first enclosure that has it. *)
Lemma findIndex_from_found l wanted i index :
  findIndex_from l wanted i = Some index →
  (index = -1 ∧ ∀ e, Some e ∈ l → id e ≠ Some wanted)
  ∨ (i ≤ index
     ∧ (∃ e, l !! Z.to_nat (index - i) = Some (Some e) ∧ id e = Some wanted)
     ∧ ∀ j e, (j < Z.to_nat (index - i))%nat → l !! j = Some (Some e) → id e ≠ Some wanted).
Proof.
  revert i. induction l as [|[e|] l IH]; intros i; simpl.
  - intros [= <-]. left. split; [done|]. intros e He. by apply elem_of_nil in He.
  - case_decide as Hid.
    + intros [= <-]. right. rewrite Z.sub_diag. simpl.
      split; [lia|]. split; [by exists e|]. intros j e' Hj. lia.
    + intros H'. destruct (IH _ H') as [[-> Hall]|(Hle & (e' & Hlook & He') & Hbefore)].
      * left. split; [done|]. intros e' [[= ->]|He']%elem_of_cons; [done|by apply Hall].
      * right. split; [lia|].
        replace (Z.to_nat (index - i)) with (S (Z.to_nat (index - (i + 1)))) by lia.
        split; [by exists e'|].
        intros [|j] e''; simpl.
        -- intros _ [= ->]. done.
        -- intros Hj. apply Hbefore. lia.
  - done.
Qed.

(** ** The updaters, one by one *)

Lemma selectEnclosure_run state wanted index free :
  findIndex_from (items (enclosures (Js.val state))) wanted 0 = Some index →
  selectEnclosure state wanted free =
    if decide (index = selectedEnclosureIndex (Js.val state)) then Some (state, free)
    else Some (Js.mkObj free
                 {| enclosures := enclosures (Js.val state);
                    isLoading := isLoading (Js.val state);
                    selectedEnclosureIndex := index;
                    selectedSlot := None;
                    selectedSide := None;
                    selectedView := Pools |}, S free).
Proof.
  intros Hfind. unfold selectEnclosure, mbind, Js_bind, Js.bind, findIndex.
  rewrite Hfind. simpl. by case_decide.
Qed.

Lemma selectEnclosure_throws state wanted free :
  findIndex_from (items (enclosures (Js.val state))) wanted 0 = None →
  selectEnclosure state wanted free = None.
Proof.
  intros Hfind. unfold selectEnclosure, mbind, Js_bind, Js.bind, findIndex.
  by rewrite Hfind.
Qed.

(** X15: selecting the same id twice in a row: the second call changes
    nothing, whatever the first one did (changed the selection, found
    nothing, or threw); neither the state object nor the allocator moves. *)
Lemma selectEnclosure_twice store wanted :
  updater selectEnclosure wanted (updater selectEnclosure wanted store)
  = updater selectEnclosure wanted store.
Proof.
  destruct (findIndex_from (items (enclosures (Js.val (state store)))) wanted 0)
    as [index|] eqn:Hfind.
  - assert (Hfirst := selectEnclosure_run (state store) wanted index (heap store) Hfind).
    unfold updater at 2. rewrite Hfirst.
    case_decide as Hsel.
    + unfold updater, install. simpl. rewrite Hfirst.
      by destruct store.
    + unfold updater at 1. unfold install. simpl.
      rewrite (selectEnclosure_run _ _ index); [|exact Hfind].
      simpl. rewrite decide_True by done.
      unfold updater. by rewrite Hfirst.
  - unfold updater at 2. rewrite selectEnclosure_throws by done.
    done.
Qed.

(** C4: when the lookup of the id resolves to an index other than the
    selected one, [selectEnclosure(id)] sets [selectedEnclosureIndex] to the
    index found (the position of the first enclosure with that id, or -1
    when no enclosure has it), clears [selectedSlot], resets [selectedSide]
    to undefined and [selectedView] to [Pools], whatever they were; the
    enclosures and the loading flag stay. *)
Theorem selectEnclosure_changes_selection store wanted index :
  findIndex_from (items (enclosures (Js.val (state store)))) wanted 0 = Some index →
  index ≠ selectedEnclosureIndex (Js.val (state store)) →
  let before := Js.val (state store) in
  let after := Js.val (state (updater selectEnclosure wanted store)) in
  selectedEnclosureIndex after = index
  ∧ ((index = -1 ∧ ∀ e, Some e ∈ items (enclosures before) → id e ≠ Some wanted)
     ∨ (0 ≤ index
        ∧ (∃ e, items (enclosures before) !! Z.to_nat index = Some (Some e)
                ∧ id e = Some wanted)
        ∧ ∀ j e, (j < Z.to_nat index)%nat →
                 items (enclosures before) !! j = Some (Some e) → id e ≠ Some wanted))
  ∧ selectedSlot after = None
  ∧ selectedSide after = None
  ∧ selectedView after = Pools
  ∧ enclosures after = enclosures before
  ∧ isLoading after = isLoading before.
Proof.
  intros Hfind Hne. simpl. unfold updater.
  rewrite (selectEnclosure_run _ _ _ _ Hfind), decide_False by done. simpl.
  split; [done|]. split; [|done].
  destruct (findIndex_from_found _ _ _ _ Hfind) as [?|(? & ? & ?)]; [by left|right].
  by rewrite Z.sub_0_r in *.
Qed.

Lemma selectEnclosure_changes_selection_witness :
  selectedEnclosureIndex (Js.val (state (updater selectEnclosure "a" Sample.loaded))) = 0
  ∧ selectedSide (Js.val (state Sample.loaded)) = Some Rear
  ∧ selectedSide (Js.val (state (updater selectEnclosure "a" Sample.loaded))) = None.
Proof.
  assert (Hfind : findIndex_from
            (items (enclosures (Js.val (state Sample.loaded)))) "a" 0 = Some 0)
    by reflexivity.
  assert (Hne : 0 ≠ selectedEnclosureIndex (Js.val (state Sample.loaded)))
    by (vm_compute; discriminate).
  pose proof (selectEnclosure_changes_selection Sample.loaded "a" 0 Hfind Hne) as H.
  simpl in H. destruct H as (H1 & _ & _ & H2 & _).
  split; [exact H1|]. split; [reflexivity|exact H2].
Defined.

(** C5: when the id resolves to the index that is already selected,
    [selectEnclosure(id)] returns the state object it was given and
    allocates nothing, so the store is left as it was; called twice in a
    row with such an id, the second call, like the first, is a no-op. *)
Theorem selectEnclosure_same_index_noop store wanted :
  findIndex_from (items (enclosures (Js.val (state store)))) wanted 0
    = Some (selectedEnclosureIndex (Js.val (state store))) →
  selectEnclosure (state store) wanted (heap store) = Some (state store, heap store)
  ∧ updater selectEnclosure wanted store = store
  ∧ updater selectEnclosure wanted (updater selectEnclosure wanted store) = store.
Proof.
  intros Hfind.
  assert (Hrun : selectEnclosure (state store) wanted (heap store)
                 = Some (state store, heap store)).
  { rewrite (selectEnclosure_run _ _ _ _ Hfind). by rewrite decide_True. }
  assert (Hstore : updater selectEnclosure wanted store = store).
  { unfold updater. rewrite Hrun. by destruct store. }
  split; [done|]. split; [done|]. by rewrite !Hstore.
Qed.

Lemma selectEnclosure_same_index_noop_witness :
  updater selectEnclosure "b" Sample.loaded = Sample.loaded.
Proof.
  assert (Hfind : findIndex_from
            (items (enclosures (Js.val (state Sample.loaded)))) "b" 0
            = Some (selectedEnclosureIndex (Js.val (state Sample.loaded))))
    by reflexivity.
  exact (proj1 (proj2 (selectEnclosure_same_index_noop Sample.loaded "b" Hfind))).
Defined.

(** C6: [selectSide(side)] with the side that is already selected returns
    the state object it was given, so the store is left as it was; with
    another side it installs a new state object in which [selectedSide] is
    the new side, [selectedSlot] is cleared, and every other field is as
    before. *)
Theorem selectSide_same_or_reset store side :
  (side = selectedSide (Js.val (state store)) →
   selectSide (state store) side (heap store) = Some (state store, heap store)
   ∧ updater selectSide side store = store)
  ∧ (side ≠ selectedSide (Js.val (state store)) →
     let before := Js.val (state store) in
     let after := Js.val (state (updater selectSide side store)) in
     Js.addr (state (updater selectSide side store)) = heap store
     ∧ selectedSide after = side
     ∧ selectedSlot after = None
     ∧ enclosures after = enclosures before
     ∧ isLoading after = isLoading before
     ∧ selectedEnclosureIndex after = selectedEnclosureIndex before
     ∧ selectedView after = selectedView before).
Proof.
  split; intros Hside; unfold updater, selectSide.
  - rewrite decide_True by done. by destruct store.
  - by rewrite decide_False by done.
Qed.

Lemma selectSide_same_or_reset_witness :
  updater selectSide (Some Rear) Sample.loaded = Sample.loaded
  ∧ selectedSide (Js.val (state (updater selectSide (Some Front) Sample.loaded))) = Some Front
  ∧ selectedSlot (Js.val (state (updater selectSide (Some Front) Sample.loaded))) = None.
Proof.
  split.
  - apply (proj1 (selectSide_same_or_reset Sample.loaded (Some Rear))). reflexivity.
  - assert (Hne : Some Front ≠ selectedSide (Js.val (state Sample.loaded)))
      by (vm_compute; discriminate).
    pose proof (proj2 (selectSide_same_or_reset Sample.loaded (Some Front)) Hne) as H.
    simpl in H. destruct H as (_ & H1 & H2 & _). by split.
Defined.

(** C10, as the code has it: when [selectedEnclosureIndex] is -1,
    [renameSelectedEnclosure] changes no element of the enclosures
    sequence and no other state field: the new state object holds a copy
    of the array with the same elements at every index.  The copy is not
    only a copy, though: the assignment at -1 adds the own property [-1],
    holding an object with nothing but the label, and [selectedEnclosure],
    which reads [enclosures[-1]], is that object afterwards. *)
Theorem renameSelectedEnclosure_unmatched store new_label :
  selectedEnclosureIndex (Js.val (state store)) = -1 →
  let before := Js.val (state store) in
  let after := Js.val (state (updater renameSelectedEnclosure new_label store)) in
  items (enclosures after) = items (enclosures before)
  ∧ (∀ i, 0 ≤ i → array_get (enclosures after) i = array_get (enclosures before) i)
  ∧ isLoading after = isLoading before
  ∧ selectedEnclosureIndex after = -1
  ∧ selectedSlot after = selectedSlot before
  ∧ selectedView after = selectedView before
  ∧ selectedSide after = selectedSide before
  ∧ Js.addr (state (updater renameSelectedEnclosure new_label store)) = heap store
  ∧ props (enclosures after)
    = {[ -1 := {| id := None; label := Some new_label; elements := None |} ]}
  ∧ selectedEnclosure after
    = Some {| id := None; label := Some new_label; elements := None |}.
Proof.
  intros Hidx. simpl. unfold selectedEnclosure, updater, renameSelectedEnclosure. simpl.
  rewrite Hidx. unfold array_set, array_get, spread_array. simpl.
  rewrite lookup_empty. simpl.
  repeat split; try done.
  intros i Hi. by case_decide.
Qed.

Lemma renameSelectedEnclosure_unmatched_witness :
  items (enclosures (Js.val (state
    (updater renameSelectedEnclosure "Spare" Sample.unmatched))))
  = [Some Sample.enclosure_a; Some Sample.enclosure_b].
Proof.
  assert (Hidx : selectedEnclosureIndex (Js.val (state Sample.unmatched)) = -1)
    by reflexivity.
  pose proof (renameSelectedEnclosure_unmatched Sample.unmatched "Spare" Hidx) as H.
  destruct H as (H & _). exact H.
Defined.

(** C10 as stated fails: with no enclosure selected, the rename produces
    more than a fresh copy of the array.  The copy gains the own property
    [-1], so it differs from a copy of the old array, and the selected
    enclosure goes from undefined to an object that holds only the label. *)
Lemma renameSelectedEnclosure_unmatched_counterexample :
  let before := Js.val (state Sample.unmatched) in
  let after := Js.val (state (updater renameSelectedEnclosure "Spare" Sample.unmatched)) in
  selectedEnclosureIndex before = -1
  ∧ enclosures after ≠ spread_array (enclosures before)
  ∧ props (enclosures before) !! (-1) = None
  ∧ props (enclosures after) !! (-1)
    = Some {| id := None; label := Some "Spare"; elements := None |}
  ∧ selectedEnclosure before = None
  ∧ selectedEnclosure after
    = Some {| id := None; label := Some "Spare"; elements := None |}
  ∧ expanders unit (λ _, None) before = None
  ∧ expanders unit (λ _, None) after = Some [].
Proof.
  simpl. split; [reflexivity|]. split.
  { intros Heq. apply (f_equal (λ a, props a !! (-1))) in Heq.
    vm_compute in Heq. discriminate. }
  repeat split; by vm_compute.
Qed.

(** ** The effects *)

Lemma keeps_enclosures_step store s :
  keeps_enclosures s →
  enclosures (Js.val (state (step store s))) = enclosures (Js.val (state store))
  ∨ state (step store s) = initialState.
Proof.
  destruct s; simpl; try done; intros _; unfold updater; try (by left); try (by right).
  - destruct (selectEnclosure (state store) wanted (heap store)) as [[new_state new_heap]|] eqn:Hsel;
      [|by left].
    destruct (findIndex_from (items (enclosures (Js.val (state store)))) wanted 0)
      as [index|] eqn:Hfind.
    + rewrite (selectEnclosure_run _ _ _ _ Hfind) in Hsel.
      case_decide; injection Hsel as <- <-; by left.
    + by rewrite selectEnclosure_throws in Hsel.
  - unfold selectSide. case_decide; by left.
Qed.

Lemma keeps_enclosures_run steps store :
  Forall keeps_enclosures steps →
  enclosures (Js.val (state store)) = empty_array →
  enclosures (Js.val (state (run steps store))) = empty_array.
Proof.
  intros Hsteps. revert store.
  induction Hsteps as [|s steps Hs _ IH]; intros store Hempty; [done|].
  simpl. apply IH.
  destruct (keeps_enclosures_step store s Hs) as [->| ->]; done.
Qed.

(** C7: when the remote call of [initiate()] fails, the cleanup still runs:
    the store ends with [isLoading = false], and [enclosures] is the empty
    sequence the reset installed.  This holds for the uninterrupted run
    ([between = []]) and also when selections, resets or cleanups of other
    calls happen while the call is in flight. *)
Theorem initiate_failure_clears_loading store error between :
  Forall keeps_enclosures between →
  let after := initiate_response (Fails error) (run between (initiate_call store)) in
  isLoading (Js.val (state after)) = false
  ∧ enclosures (Js.val (state after)) = empty_array
  ∧ enclosures (Js.val (state after)) = enclosures (Js.val initialState)
  ∧ errorHandler after = error :: errorHandler (run between (initiate_call store)).
Proof.
  intros Hbetween. simpl.
  assert (Hempty : enclosures (Js.val (state (run between (initiate_call store))))
                   = empty_array)
    by (by apply keeps_enclosures_run).
  unfold initiate_response, pipe, tap, finalize, delay. simpl.
  unfold patchState_isLoading, updater. simpl.
  by rewrite Hempty.
Qed.

Lemma initiate_failure_clears_loading_witness :
  isLoading (Js.val (state (initiate (Fails "timeout") Sample.loaded))) = false
  ∧ enclosures (Js.val (state (initiate (Fails "timeout") Sample.loaded))) = empty_array.
Proof.
  pose proof (initiate_failure_clears_loading Sample.loaded "timeout" [] (Forall_nil_2 _)) as H.
  simpl in H. destruct H as (H1 & H2 & _). split; [exact H1|exact H2].
Defined.

(** C8: [update()] never touches [isLoading], [selectedEnclosureIndex],
    [selectedSlot], [selectedView] or [selectedSide].  When the call
    succeeds, [enclosures] becomes the fetched payload; when it fails, the
    state object stays the one it was, so every field, the previous
    enclosures included, is unchanged. *)
Theorem update_frame store result :
  let before := Js.val (state store) in
  let after := Js.val (state (update result store)) in
  isLoading after = isLoading before
  ∧ selectedEnclosureIndex after = selectedEnclosureIndex before
  ∧ selectedSlot after = selectedSlot before
  ∧ selectedView after = selectedView before
  ∧ selectedSide after = selectedSide before
  ∧ match result with
    | Succeeds payload => enclosures after = array_of payload
    | Fails error =>
        state (update result store) = state store
        ∧ errorHandler (update result store) = error :: errorHandler store
    end.
Proof.
  destruct result as [payload|error]; simpl; done.
Qed.

(** ** The disk-update listener *)

Lemma addListenerForDiskUpdates_subscribed fresh_id store :
  Js.truthy (disksUpdateSubscriptionId store) = true →
  addListenerForDiskUpdates fresh_id store = store.
Proof. intros Hid. unfold addListenerForDiskUpdates. by rewrite Hid. Qed.

Lemma update_calls_update_call store :
  update_calls (update_call store) = S (update_calls store).
Proof. unfold update_calls, update_call, issue. cbn [ws]. by rewrite filter_cons_True. Qed.

Lemma notify_single trigger subject store :
  triggers store = [trigger] →
  notify subject store = if decide (trigger = subject) then update_call store else store.
Proof. intros Htr. unfold notify. by rewrite Htr. Qed.

Lemma notify_all_calls trigger subjects store :
  triggers store = [trigger] →
  triggers (foldr notify store subjects) = [trigger]
  ∧ update_calls (foldr notify store subjects)
    = (update_calls store + length (filter (λ s, s = trigger) subjects))%nat.
Proof.
  intros Htr. induction subjects as [|subject subjects [IHtr IHcalls]]; simpl.
  - split; [done|lia].
  - rewrite (notify_single trigger) by done.
    case_decide as Heq.
    + subst subject. rewrite filter_cons_True by done.
      split; [done|]. rewrite update_calls_update_call, IHcalls. simpl. lia.
    + rewrite filter_cons_False by (intros ->; done). done.
Qed.

Lemma filter_no_match {A} (P : A → Prop) `{∀ x, Decision (P x)} (l : list A) :
  (∀ x, x ∈ l → ¬ P x) → filter P l = [].
Proof.
  induction l as [|x l IH]; intros Hnone; [done|].
  rewrite filter_cons_False by (apply Hnone; left).
  apply IH. intros y Hy. apply Hnone. by right.
Qed.





(** ** Reachable states *)

(** The state object of a store always lies below the next free address,
    so the object an updater allocates is never the one it was given. *)
Lemma step_allocated store s :
  (0 < heap store)%nat → (Js.addr (state store) < heap store)%nat →
  (0 < heap (step store s))%nat
  ∧ (Js.addr (state (step store s)) < heap (step store s))%nat.
Proof.
  intros Hheap Haddr. destruct s; simpl; unfold updater; simpl; try (split; lia).
  - destruct (findIndex_from (items (enclosures (Js.val (state store)))) wanted 0)
      as [index|] eqn:Hfind.
    + rewrite (selectEnclosure_run _ _ _ _ Hfind). case_decide; simpl; split; lia.
    + rewrite selectEnclosure_throws by done. split; lia.
  - unfold selectSide. case_decide; simpl; split; lia.
Qed.

Lemma run_allocated registry free steps :
  (0 < free)%nat →
  (Js.addr (state (run steps (construct registry free)))
   < heap (run steps (construct registry free)))%nat.
Proof.
  intros Hfree.
  assert (Hstart : (0 < heap (construct registry free))%nat
                   ∧ (Js.addr (state (construct registry free))
                      < heap (construct registry free))%nat) by (simpl; lia).
  revert Hstart. generalize (construct registry free) as store.
  induction steps as [|s steps IH]; intros store [Hheap Haddr]; [done|].
  simpl. apply IH. by apply step_allocated.
Qed.

Lemma length_items_set l i v :
  length (items_set l i v) = if decide (i < length l)%nat then length l else S i.
Proof.
  unfold items_set. case_decide.
  - by rewrite length_insert.
  - rewrite !length_app, length_replicate. simpl. lia.
Qed.

Lemma step_index_lower store s :
  -1 ≤ selectedEnclosureIndex (Js.val (state store)) →
  -1 ≤ selectedEnclosureIndex (Js.val (state (step store s))).
Proof.
  intros Hlow. destruct s; simpl; unfold updater; try done.
  - destruct (findIndex_from (items (enclosures (Js.val (state store)))) wanted 0)
      as [index|] eqn:Hfind.
    + rewrite (selectEnclosure_run _ _ _ _ Hfind). case_decide; simpl; [done|].
      destruct (findIndex_from_bounds _ _ _ _ Hfind); lia.
    + by rewrite selectEnclosure_throws.
  - unfold selectSide. by case_decide.
Qed.

Lemma step_index_valid store s :
  ¬ strands store s →
  index_valid (Js.val (state store)) ∨ selectedEnclosureIndex (Js.val (state store)) = -1 →
  index_valid (Js.val (state (step store s)))
  ∨ selectedEnclosureIndex (Js.val (state (step store s))) = -1.
Proof.
  intros Hkeeps Hvalid. destruct s; simpl; unfold updater; try done.
  - left. right. done.
  - simpl in Hkeeps. simpl. unfold index_valid. simpl. rewrite length_fmap.
    destruct Hvalid as [[Hin|[Hnil Hzero]]|Hunset]; [| |by right].
    + destruct payload as [|e payload].
      * left. right. split; [done|]. simpl in Hkeeps. lia.
      * left. left. simpl in *. lia.
    + left. rewrite Hzero. destruct payload; simpl; [by right|left; lia].
  - destruct (findIndex_from (items (enclosures (Js.val (state store)))) wanted 0)
      as [index|] eqn:Hfind.
    + rewrite (selectEnclosure_run _ _ _ _ Hfind). case_decide; simpl; [done|].
      destruct (findIndex_from_bounds _ _ _ _ Hfind) as [->|Hin]; [by right|].
      left. left. simpl. lia.
    + by rewrite selectEnclosure_throws.
  - simpl. unfold array_set, spread_array. simpl.
    destruct Hvalid as [[Hin|[Hnil Hzero]]|Hunset].
    + left. left. simpl. rewrite decide_True by lia. simpl.
      rewrite length_items_set, decide_True by lia. done.
    + left. left. simpl. rewrite Hzero, Hnil. simpl. lia.
    + right. done.
  - unfold selectSide. by case_decide.
Qed.

Lemma strands_invalid store s :
  strands store s →
  ¬ index_valid (Js.val (state (step store s)))
  ∧ selectedEnclosureIndex (Js.val (state (step store s))) ≠ -1.
Proof.
  destruct s; try done. simpl. intros [Hpos Hpast].
  unfold index_valid. simpl. rewrite length_fmap. split; [|lia].
  intros [?|[_ ?]]; lia.
Qed.

Lemma run_index_lower steps store :
  -1 ≤ selectedEnclosureIndex (Js.val (state store)) →
  -1 ≤ selectedEnclosureIndex (Js.val (state (run steps store))).
Proof.
  revert store. induction steps as [|s steps IH]; intros store Hlow; [done|].
  simpl. by apply IH, step_index_lower.
Qed.

Lemma run_index_valid steps store :
  never_strands steps store →
  index_valid (Js.val (state store)) ∨ selectedEnclosureIndex (Js.val (state store)) = -1 →
  index_valid (Js.val (state (run steps store)))
  ∨ selectedEnclosureIndex (Js.val (state (run steps store))) = -1.
Proof.
  revert store. induction steps as [|s steps IH]; intros store Hkeeps Hvalid; [done|].
  destruct Hkeeps as [Hkeeps Hrest]. simpl. apply IH; [done|].
  by apply step_index_valid.
Qed.

(** C3, as the code has it: in every state a store can reach,
    [selectedEnclosureIndex] is at least -1.  It is a valid index into the
    current enclosures, or 0 on an empty sequence, or the -1 that
    [selectEnclosure] leaves when no enclosure has the id, as long as no
    reload on the way stranded the selection, that is, arrived while a
    positive index was selected that is at or past the end of the reloaded
    sequence; a reload with index 0 or -1 selected, however short, does no
    harm.  Right after a reload that strands the selection the index is
    none of the three. *)
Theorem selectedEnclosureIndex_reachable registry free steps :
  let start := construct registry free in
  let st := Js.val (state (run steps start)) in
  -1 ≤ selectedEnclosureIndex st
  ∧ (never_strands steps start → index_valid st ∨ selectedEnclosureIndex st = -1)
  ∧ (∀ s, strands (run steps start) s →
       ¬ index_valid (Js.val (state (step (run steps start) s)))
       ∧ selectedEnclosureIndex (Js.val (state (step (run steps start) s))) ≠ -1).
Proof.
  simpl. split; [|split].
  - apply run_index_lower. simpl. lia.
  - intros Hkeeps. apply run_index_valid; [done|]. left. right. done.
  - intros s. apply strands_invalid.
Qed.

Lemma selectedEnclosureIndex_reachable_witness :
  never_strands [Reset; Loaded [Sample.enclosure_a; Sample.enclosure_b]; Settled;
                 Loaded []; SelectEnclosure "c"] Sample.fresh
  ∧ (index_valid (Js.val (state (run
       [Reset; Loaded [Sample.enclosure_a; Sample.enclosure_b]; Settled;
        Loaded []; SelectEnclosure "c"] Sample.fresh)))
     ∨ selectedEnclosureIndex (Js.val (state (run
         [Reset; Loaded [Sample.enclosure_a; Sample.enclosure_b]; Settled;
          Loaded []; SelectEnclosure "c"] Sample.fresh))) = -1).
Proof.
  assert (Hkeeps : never_strands
            [Reset; Loaded [Sample.enclosure_a; Sample.enclosure_b]; Settled;
             Loaded []; SelectEnclosure "c"] Sample.fresh)
    by (simpl; repeat split; try (intros [? ?]; lia); tauto).
  split; [exact Hkeeps|].
  exact (proj1 (proj2 (selectedEnclosureIndex_reachable ∅ 1%nat _)) Hkeeps).
Defined.

(** C3 as stated fails, in two ways.  Selecting an id that no enclosure
    has leaves the index -1; and a reload that delivers one enclosure while
    the second is selected leaves the index 1 past the end.  In both states
    [selectedEnclosureIndex] is neither a valid index nor 0 on an empty
    sequence. *)
Lemma selectedEnclosureIndex_invalid_reachable :
  (∃ st, reachable st ∧ ¬ index_valid st ∧ selectedEnclosureIndex st = -1)
  ∧ (∃ st, reachable st ∧ ¬ index_valid st ∧ selectedEnclosureIndex st = 1
           ∧ length (items (enclosures st)) = 1%nat).
Proof.
  split.
  - exists (Js.val (state Sample.unmatched)). split; [|split; [|reflexivity]].
    + exists ∅, 1%nat,
        [Reset; Loaded [Sample.enclosure_a; Sample.enclosure_b]; Settled;
         SelectEnclosure "c"].
      reflexivity.
    + unfold index_valid. simpl. intros [?|[? ?]]; [lia|done].
  - exists (Js.val (state (step Sample.loaded (Loaded [Sample.enclosure_a])))).
    split; [|split; [|split; reflexivity]].
    + exists ∅, 1%nat,
        [Reset; Loaded [Sample.enclosure_a; Sample.enclosure_b]; Settled;
         SelectEnclosure "b"; SelectSide (Some Rear); Loaded [Sample.enclosure_a]].
      reflexivity.
    + unfold index_valid. simpl. intros [?|[? ?]]; [lia|done].
Qed.

(** ** The tile view *)

Lemma pool_entries slots :
  mapM pool_entry (filter (λ slot, is_Some (pool_info slot)) slots)
  = Some (keyed <$> pool_infos slots).
Proof.
  unfold pool_infos. induction slots as [|slot slots IH]; [done|].
  destruct (pool_info slot) as [info|] eqn:Hinfo.
  - rewrite filter_cons_True by (by rewrite Hinfo).
    change (mapM pool_entry (slot :: ?l))
      with (pool_entry slot ≫= λ y, mapM pool_entry l ≫= λ k, mret (y :: k)).
    rewrite IH. unfold pool_entry. rewrite Hinfo. simpl. by rewrite Hinfo.
  - rewrite filter_cons_False by (rewrite Hinfo; by intros [? ?]).
    simpl. by rewrite Hinfo.
Qed.

Lemma keyed_set_pool infos info :
  keyed <$> set_pool infos info = Map_set (keyed <$> infos) (pool_name info) info.
Proof.
  induction infos as [|other infos IH]; [done|].
  simpl. case_decide as Hsame; simpl.
  - unfold keyed at 1. by rewrite Hsame.
  - f_equal. exact IH.
Qed.

Lemma filter_set_pool_same name infos info :
  pool_name info = name →
  filter (λ other, pool_name other ≠ name) (set_pool infos info)
  = filter (λ other, pool_name other ≠ name) infos.
Proof.
  intros Hname. induction infos as [|other infos IH]; simpl.
  - by rewrite filter_cons_False by (intros Hne; by apply Hne).
  - case_decide as Hsame.
    + rewrite !filter_cons_False; [done| |]; intros Hne; apply Hne; congruence.
    + rewrite !filter_cons, IH. done.
Qed.

Lemma filter_set_pool_other name infos info :
  pool_name info ≠ name →
  filter (λ other, pool_name other ≠ name) (set_pool infos info)
  = set_pool (filter (λ other, pool_name other ≠ name) infos) info.
Proof.
  intros Hname. induction infos as [|other infos IH]; simpl.
  - by rewrite filter_cons_True.
  - case_decide as Hsame.
    + rewrite !filter_cons_True by congruence. simpl. by rewrite decide_True.
    + rewrite !filter_cons. case_decide as Hkeep.
      * simpl. rewrite decide_False by done. by rewrite IH.
      * done.
Qed.

Lemma last_same_pool_name info rest :
  pool_name (default info (last (filter (λ other, pool_name other = pool_name info) rest)))
  = pool_name info.
Proof.
  destruct (last _) as [found|] eqn:Hlast; [|done]. simpl.
  apply last_Some_elem_of, list_elem_of_filter in Hlast. by destruct Hlast.
Qed.

Lemma last_per_pool_snoc infos info :
  last_per_pool (infos ++ [info]) = set_pool (last_per_pool infos) info.
Proof.
  induction infos as [|first infos IH]; [done|].
  simpl. rewrite IH, filter_app. rewrite last_same_pool_name.
  case_decide as Hsame.
  - rewrite filter_cons_True by done. rewrite filter_nil.
    rewrite last_snoc. simpl.
    by rewrite filter_set_pool_same.
  - rewrite filter_cons_False by done. rewrite filter_nil, app_nil_r.
    by rewrite filter_set_pool_other by done.
Qed.

Lemma new_Map_last_per_pool infos :
  new_Map (keyed <$> infos) = keyed <$> last_per_pool infos.
Proof.
  unfold new_Map. induction infos as [|info infos IH] using rev_ind; [done|].
  rewrite fmap_app, foldl_app, IH. simpl.
  by rewrite last_per_pool_snoc, keyed_set_pool.
Qed.

Lemma pool_names_filter name (infos1 infos2 : list EnclosureSlotPoolInfo) :
  pool_name <$> infos1 = pool_name <$> infos2 →
  pool_name <$> filter (λ other, pool_name other ≠ name) infos1
  = pool_name <$> filter (λ other, pool_name other ≠ name) infos2.
Proof.
  revert infos2. induction infos1 as [|i1 infos1 IH]; intros [|i2 infos2]; try done.
  simpl. intros [= Hhead Htail]. rewrite !filter_cons.
  repeat case_decide; try congruence; rewrite ?fmap_cons, (IH _ Htail); congruence.
Qed.

Lemma pool_names_last_first infos :
  pool_name <$> last_per_pool infos = pool_name <$> first_per_pool infos.
Proof.
  induction infos as [|info infos IH]; [done|].
  simpl. rewrite last_same_pool_name. f_equal. by apply pool_names_filter.
Qed.

Lemma pool_names_first_NoDup infos :
  NoDup (pool_name <$> first_per_pool infos).
Proof.
  induction infos as [|info infos IH]; simpl; [constructor|].
  constructor.
  - intros (other & Hname & Hin)%list_elem_of_fmap.
    apply list_elem_of_filter in Hin as [Hne _]. by apply Hne.
  - revert IH. generalize (first_per_pool infos) as l.
    induction l as [|x l IHl]; [done|].
    simpl. intros [Hx Hl]%NoDup_cons. rewrite filter_cons.
    case_decide; [|by apply IHl].
    simpl. constructor; [|by apply IHl].
    intros (other & Hname & Hin)%list_elem_of_fmap.
    apply list_elem_of_filter in Hin as [_ Hin].
    apply Hx, list_elem_of_fmap. by exists other.
Qed.

Lemma last_per_pool_is_last infos info :
  info ∈ last_per_pool infos →
  last (filter (λ other, pool_name other = pool_name info) infos) = Some info.
Proof.
  induction infos as [|first infos IH]; simpl; [by intros ?%elem_of_nil|].
  intros [->|Hin]%elem_of_cons.
  - rewrite last_same_pool_name.
    rewrite filter_cons_True by done.
    destruct (filter _ infos) as [|x l] eqn:Hf; [done|].
    rewrite last_cons. by destruct (last (x :: l)).
  - apply list_elem_of_filter in Hin as [Hne Hin].
    rewrite filter_cons_False by congruence. by apply IH.
Qed.

(** C1, as the code has it: [poolsInfo] is the list of the pool
    descriptors of the selected enclosure's array-device slots,
    deduplicated by pool name; slots without [pool_info] are left out; the
    pools stand in the order of their first slots, one entry per pool
    name; and the entry of a pool is the descriptor of the last slot of
    that pool, since a later [Map] entry replaces the value of an earlier
    one with the same key. *)
Theorem poolsInfo_last_descriptor st :
  let infos := pool_infos (selectedEnclosureSlots st) in
  poolsInfo st = Some (last_per_pool infos)
  ∧ pool_name <$> last_per_pool infos = pool_name <$> first_per_pool infos
  ∧ NoDup (pool_name <$> last_per_pool infos)
  ∧ ∀ info, info ∈ last_per_pool infos →
      last (filter (λ other, pool_name other = pool_name info) infos) = Some info.
Proof.
  simpl. split; [|split; [|split]].
  - unfold poolsInfo. rewrite pool_entries. simpl.
    rewrite new_Map_last_per_pool. unfold Map_values.
    rewrite <- list_fmap_compose. f_equal. apply list_fmap_id.
  - apply pool_names_last_first.
  - rewrite pool_names_last_first. apply pool_names_first_NoDup.
  - apply last_per_pool_is_last.
Qed.

(** C1 as stated fails: with two slots of the pool [tank], the first
    online and the last faulted, [poolsInfo] holds the descriptor of the
    last slot, not that of the first. *)
Lemma poolsInfo_first_descriptor_counterexample :
  poolsInfo Sample.shelf_selected = Some [Sample.tank_faulted]
  ∧ first_per_pool (pool_infos (selectedEnclosureSlots Sample.shelf_selected))
    = [Sample.tank_online]
  ∧ poolsInfo Sample.shelf_selected
    ≠ Some (first_per_pool (pool_infos (selectedEnclosureSlots Sample.shelf_selected))).
Proof. split; [reflexivity|]. split; [reflexivity|]. vm_compute. discriminate. Qed.

(** ** The CPU gauge *)

Section GaugeFacts.

Import Gauge.
Local Open Scope string_scope.
Local Open Scope Z_scope.

(** *** Strings *)

Lemma append_cons c s t : String c s +:+ t = String c (s +:+ t).
Proof. reflexivity. Qed.

Lemma append_assoc s t u : (s +:+ t) +:+ u = s +:+ (t +:+ u).
Proof. induction s as [|c s IH]; [done|]. by rewrite !append_cons, IH. Qed.

Lemma length_append s t :
  String.length (s +:+ t) = (String.length s + String.length t)%nat.
Proof. induction s as [|c s IH]; [done|]. rewrite append_cons. simpl. by rewrite IH. Qed.

Lemma substring_all s : substring 0 (String.length s) s = s.
Proof. induction s as [|c s IH]; [done|]. simpl. by rewrite IH. Qed.

Lemma substring_prefix s t : substring 0 (String.length s) (s +:+ t) = s.
Proof.
  induction s as [|c s IH]; [by destruct t|].
  rewrite append_cons. simpl. by rewrite IH.
Qed.

Lemma substring_suffix s t n : substring (String.length s) n (s +:+ t) = substring 0 n t.
Proof. induction s as [|c s IH]; [done|]. rewrite append_cons. simpl. by rewrite IH. Qed.

(** *** Decimal digits *)

Lemma digit_cases d : 0 ≤ d < 10 →
  d = 0 ∨ d = 1 ∨ d = 2 ∨ d = 3 ∨ d = 4 ∨ d = 5 ∨ d = 6 ∨ d = 7 ∨ d = 8 ∨ d = 9.
Proof. lia. Qed.

Lemma digit_value_digit_char d : 0 ≤ d < 10 → digit_value (digit_char d) = Some d.
Proof.
  intros Hd. destruct (digit_cases d Hd) as [->|[->|[->|[->|[->|[->|[->|[->|[->| ->]]]]]]]]];
    reflexivity.
Qed.

Lemma decimal_digits_enough f1 f2 n :
  0 ≤ n < 2 ^ Z.of_nat (S f1) → n < 2 ^ Z.of_nat (S f2) →
  decimal_digits (S f1) n = decimal_digits (S f2) n.
Proof.
  revert f2 n. induction f1 as [|f1 IH]; intros f2 n Hn1 Hn2.
  - simpl in *. destruct (Z.ltb_spec n 10); [done|lia].
  - cbn [decimal_digits]. destruct (Z.ltb_spec n 10) as [Hsmall|Hbig]; [done|].
    destruct f2 as [|f2].
    { change (2 ^ Z.of_nat 1) with 2 in Hn2. lia. }
    f_equal. apply IH.
    + rewrite Nat2Z.inj_succ, Z.pow_succ_r in Hn1 by lia.
      split; [apply Z.div_pos; lia|].
      apply Z.div_lt_upper_bound; lia.
    + rewrite Nat2Z.inj_succ, Z.pow_succ_r in Hn2 by lia.
      apply Z.div_lt_upper_bound; lia.
Qed.

Lemma decimal_fuel n : 0 ≤ n → n < 2 ^ Z.of_nat (S (Z.to_nat (Z.log2 n))).
Proof.
  intros Hn. rewrite Nat2Z.inj_succ, Z2Nat.id by apply Z.log2_nonneg.
  destruct (Z.eq_dec n 0) as [->|Hpos]; [done|].
  apply Z.log2_spec. lia.
Qed.

Lemma decimal_small n : 0 ≤ n < 10 → decimal n = String (digit_char n) EmptyString.
Proof.
  intros Hn. unfold decimal. cbn [decimal_digits].
  destruct (Z.ltb_spec n 10); [done|lia].
Qed.

Lemma decimal_step n :
  10 ≤ n → decimal n = decimal (n / 10) +:+ String (digit_char (n mod 10)) EmptyString.
Proof.
  intros Hn. unfold decimal at 1.
  pose proof (decimal_fuel n ltac:(lia)) as Hfuel.
  destruct (Z.to_nat (Z.log2 n)) as [|fuel] eqn:Hlog.
  { change (2 ^ Z.of_nat 1) with 2 in Hfuel. lia. }
  cbn [decimal_digits]. destruct (Z.ltb_spec n 10) as [?|_]; [lia|].
  f_equal. unfold decimal. apply decimal_digits_enough.
  - rewrite Nat2Z.inj_succ, Z.pow_succ_r in Hfuel by lia.
    split; [apply Z.div_pos; lia|]. apply Z.div_lt_upper_bound; lia.
  - apply decimal_fuel, Z.div_pos; lia.
Qed.

Lemma digits_only_append s t : digits_only s → digits_only t → digits_only (s +:+ t).
Proof.
  intros Hs Ht. induction s as [|c s IH]; [done|].
  rewrite append_cons. destruct Hs as [Hc Hs]. split; [done|by apply IH].
Qed.

Lemma decimal_digits_only n : 0 ≤ n → digits_only (decimal n) ∧ decimal n ≠ EmptyString.
Proof.
  intros Hn. revert Hn. pattern n. apply (well_founded_induction (Z.lt_wf 0)).
  clear n. intros n IH Hn.
  destruct (Z.lt_ge_cases n 10) as [Hsmall|Hbig].
  - rewrite decimal_small by lia. split; [|done]. split; [|done]. exists n. split; [lia|done].
  - rewrite decimal_step by done.
    destruct (IH (n / 10)) as [Hdigits Hne].
    { split; [apply Z.div_pos; lia|]. apply Z.div_lt; lia. }
    { apply Z.div_pos; lia. }
    split.
    + apply digits_only_append; [done|]. split; [|done].
      exists (n mod 10). split; [apply Z.mod_pos_bound; lia|done].
    + destruct (decimal (n / 10)); [done|]. by rewrite append_cons.
Qed.

(** Reading back the digits of [n]: the accumulator is shifted by their
    number and [n] is added. *)
Lemma parse_decimal n rest acc :
  0 ≤ n →
  parse_digits 10 (decimal n +:+ rest) acc
  = parse_digits 10 rest
      (Int (match acc with Int a => a | NaN => 0 end
            * 10 ^ Z.of_nat (String.length (decimal n)) + n)).
Proof.
  intros Hn. revert Hn rest acc. pattern n. apply (well_founded_induction (Z.lt_wf 0)).
  clear n. intros n IH Hn rest acc.
  destruct (Z.lt_ge_cases n 10) as [Hsmall|Hbig].
  - rewrite decimal_small by lia. rewrite append_cons. cbn [parse_digits String.length].
    rewrite digit_value_digit_char by lia.
    destruct (Z.ltb_spec n 10); [|lia].
    change (String.append EmptyString rest) with rest.
    change (10 ^ Z.of_nat 1) with 10. done.
  - rewrite decimal_step by done. rewrite append_assoc, append_cons.
    change (String.append EmptyString rest) with rest.
    rewrite IH; [|split; [apply Z.div_pos; lia|apply Z.div_lt; lia]|apply Z.div_pos; lia].
    cbn [parse_digits]. rewrite digit_value_digit_char by (apply Z.mod_pos_bound; lia).
    destruct (Z.ltb_spec (n mod 10) 10) as [_|Hmod];
      [|pose proof (Z.mod_pos_bound n 10); lia].
    f_equal. f_equal. rewrite length_append. cbn [String.length].
    rewrite Nat2Z.inj_add, Z.pow_add_r by lia.
    change (10 ^ Z.of_nat 1) with 10.
    pose proof (Z.div_mod n 10). lia.
Qed.

(** *** [toFixed(1)] and [parseInt] *)

Lemma fixed_digits_1 n :
  0 ≤ n →
  fixed_digits n 1
  = decimal (n / 10) +:+ String "." (String (digit_char (n mod 10)) EmptyString).
Proof.
  intros Hn. unfold fixed_digits. rewrite decide_False by done.
  destruct (Z.lt_ge_cases n 10) as [Hsmall|Hbig].
  - rewrite (decimal_small n) by lia. cbn [String.length].
    rewrite !decide_True by lia.
    rewrite Z.div_small, Z.mod_small by lia. reflexivity.
  - rewrite (decimal_step n) by done.
    destruct (decimal_digits_only (n / 10)) as [_ Hne]; [apply Z.div_pos; lia|].
    rewrite length_append. cbn [String.length].
    assert (String.length (decimal (n / 10)) ≠ 0%nat) by (by destruct (decimal (n / 10))).
    rewrite !decide_False by lia.
    replace (String.length (decimal (n / 10)) + 1 - 1)%nat
      with (String.length (decimal (n / 10))) by lia.
    rewrite substring_prefix, substring_suffix. reflexivity.
Qed.

Lemma parseInt_digits negative digits rest :
  digits_only digits → digits ≠ EmptyString →
  parseInt ((if negative : bool then "-" else EmptyString) +:+ digits +:+ String "." rest)
  = negate negative (parse_digits 10 (digits +:+ String "." rest) NaN).
Proof.
  intros Hdigits Hne. destruct digits as [|c digits]; [done|].
  destruct Hdigits as [(d & Hd & ->) Hdigits]. clear Hne.
  assert (Hnot_hex : ∀ suffix,
    digits_only digits →
    match digits +:+ String "." suffix with
    | String "x" _ | String "X" _ => False
    | _ => True
    end).
  { intros suffix. destruct digits as [|c2 digits2]; [done|].
    intros [(d2 & Hd2 & ->) _]. rewrite append_cons.
    destruct (digit_cases d2 Hd2) as [->|[->|[->|[->|[->|[->|[->|[->|[->| ->]]]]]]]]];
      exact I. }
  specialize (Hnot_hex rest Hdigits).
  destruct (digit_cases d Hd) as [->|[->|[->|[->|[->|[->|[->|[->|[->| ->]]]]]]]]];
    destruct negative; rewrite ?append_cons; try reflexivity;
    change (String.append EmptyString ?s) with s; rewrite ?append_cons;
    unfold parseInt; cbn [trim_start StrWhiteSpaceChar];
    destruct (digits +:+ String "." rest) as [|c2 tail]; try reflexivity;
    destruct c2 as [[] [] [] [] [] [] [] []]; try reflexivity; done.
Qed.

Lemma parseInt_fixed_digits negative n :
  0 ≤ n →
  parseInt ((if negative : bool then "-" else EmptyString) +:+ fixed_digits n 1)
  = Int (if negative then - (n / 10) else n / 10).
Proof.
  intros Hn. rewrite fixed_digits_1 by done.
  destruct (decimal_digits_only (n / 10)) as [Hdigits Hne]; [apply Z.div_pos; lia|].
  rewrite parseInt_digits by done.
  rewrite parse_decimal by (apply Z.div_pos; lia).
  reflexivity.
Qed.

(** *** Rounding to tenths *)

Lemma nearest_nonneg m e f : 0 ≤ nearest m e f.
Proof.
  unfold nearest. destruct (Z.leb_spec 0 e).
  - apply Z.mul_nonneg_nonneg; [apply Z.mul_nonneg_nonneg|]; [lia| |];
      apply Z.pow_nonneg; lia.
  - assert (0 < 2 ^ (- e)) by (apply Z.pow_pos_nonneg; lia).
    assert (0 ≤ 10 ^ Z.of_nat f) by (apply Z.pow_nonneg; lia).
    apply Z.div_pos; nia.
Qed.

(** [nearest] is the rounding [toFixed] prescribes.  For a fraction
    [X / q], with [X = m * 10^f] and [q = 2^(-e)], no integer is closer to it
    than [nearest m e f], and of two integers equally close [nearest] is
    the larger. *)
Lemma nearest_closest m e f k :
  e < 0 →
  let q := 2 ^ (- e) in
  let X := Z.pos m * 10 ^ Z.of_nat f in
  Z.abs (q * nearest m e f - X) ≤ Z.abs (q * k - X)
  ∧ (Z.abs (q * nearest m e f - X) = Z.abs (q * k - X) → k ≤ nearest m e f).
Proof.
  intros He q X. unfold nearest. destruct (Z.leb_spec 0 e); [lia|].
  fold q X.
  assert (Hq : 0 < q) by (apply Z.pow_pos_nonneg; lia).
  pose proof (Z.div_mod (2 * X + q) (2 * q) ltac:(lia)) as Hdiv.
  pose proof (Z.mod_pos_bound (2 * X + q) (2 * q) ltac:(lia)) as Hmod.
  set (n := (2 * X + q) / (2 * q)) in *.
  destruct (Z.lt_trichotomy k n) as [Hlt|[->|Hgt]]; [|lia|].
  - assert (q * k ≤ q * n - q) by nia. lia.
  - assert (q * n + q ≤ q * k) by nia. lia.
Qed.

Lemma nearest_exact m e f :
  0 ≤ e → nearest m e f = Z.pos m * 2 ^ e * 10 ^ Z.of_nat f.
Proof. intros He. unfold nearest. destruct (Z.leb_spec 0 e); lia. Qed.

(** [rounded_to_one_decimal] is a rounding to one decimal place: it is a
    number of tenths at most half a tenth away from the exact value. *)
Lemma rounded_to_one_decimal_close negative m e :
  (Qabs (rounded_to_one_decimal (S754_finite negative m e)
         - value_of (S754_finite negative m e)) <= 1 # 20)%Q.
Proof.
  assert (Hmag : (Qabs (Qmake (nearest m e 1) 10
                        - (if 0 <=? e then inject_Z (Z.pos m * 2 ^ e)
                           else Qmake (Z.pos m) (Z.to_pos (2 ^ (- e))))) <= 1 # 20)%Q).
  { unfold nearest. destruct (Z.leb_spec 0 e) as [He|He].
    - assert (0 ≤ 2 ^ e) by (apply Z.pow_nonneg; lia).
      unfold Qle, Qabs, Qminus, Qplus, Qopp, inject_Z. cbn [Qnum Qden].
      change (10 ^ Z.of_nat 1) with 10.
      replace (Z.pos m * 10 * 2 ^ e * 1 + - (Z.pos m * 2 ^ e) * 10) with 0 by lia.
      simpl. lia.
    - assert (Hq : 0 < 2 ^ (- e)) by (apply Z.pow_pos_nonneg; lia).
      set (q := 2 ^ (- e)) in *.
      change (10 ^ Z.of_nat 1) with 10.
      pose proof (Z.div_mod (2 * (Z.pos m * 10) + q) (2 * q) ltac:(lia)) as Hdiv.
      pose proof (Z.mod_pos_bound (2 * (Z.pos m * 10) + q) (2 * q) ltac:(lia)) as Hmod.
      set (n := (2 * (Z.pos m * 10) + q) / (2 * q)) in *.
      unfold Qle, Qabs, Qminus, Qplus, Qopp. cbn [Qnum Qden].
      rewrite !Pos2Z.inj_mul, Z2Pos.id by done.
      lia. }
  unfold rounded_to_one_decimal, value_of. destruct negative; [|exact Hmag].
  rewrite <- Qabs_opp.
  eapply Qle_trans; [|exact Hmag]. apply Qle_lteq. right.
  apply Qabs_wd. unfold Qeq, Qminus, Qplus, Qopp. destruct (0 <=? e); cbn [Qnum Qden]; lia.
Qed.

(** X16: what [cpuAvg] computes.  For a sample whose average usage is a finite
    number of magnitude below 10^21, the gauge configuration has the label
    suppressed, units ['%'], max 100, diameter 136, font size 28, the
    translated subtitle, and as its data point the integer part of the
    usage rounded to one decimal place: [toFixed(1)] rounds to tenths, and
    [parseInt] then reads the digits before the decimal point only. *)
Theorem cpuAvg_integer_part Number_toString translate_instant cpuData :
  magnitude_below_1e21 (usage (average cpuData)) = true →
  cpuAvg Number_toString translate_instant cpuData
  = {| label := false;
       data := ("Load", Int (Qtruncate (rounded_to_one_decimal (usage (average cpuData)))));
       units := "%";
       diameter := 136;
       fontSize := 28;
       max := 100;
       subtitle := translate_instant "Avg Usage" |}.
Proof.
  intros Hbelow. unfold cpuAvg. f_equal. f_equal.
  destruct (usage (average cpuData)) as [s|s| |negative m e]; try done.
  simpl in Hbelow. unfold toFixed. rewrite Hbelow.
  rewrite parseInt_fixed_digits by apply nearest_nonneg.
  f_equal. unfold Qtruncate, rounded_to_one_decimal. cbn [Qnum Qden].
  pose proof (nearest_nonneg m e 1).
  destruct negative.
  - rewrite Z.quot_opp_l, Z.quot_div_nonneg by lia. done.
  - rewrite Z.quot_div_nonneg by lia. done.
Qed.

Lemma cpuAvg_integer_part_witness :
  data (cpuAvg Sample.no_exponent_notation Sample.untranslated Sample.cpu_12_5)
  = ("Load", Int 12).
Proof.
  assert (Hbelow : magnitude_below_1e21 (usage (average Sample.cpu_12_5)) = true)
    by reflexivity.
  rewrite (cpuAvg_integer_part Sample.no_exponent_notation Sample.untranslated
             Sample.cpu_12_5 Hbelow).
  reflexivity.
Defined.

(** C2 at the usage 12.5.  The claim: the data point of the gauge is the
    average usage rounded to one decimal place, here 12.5.  The code:
    [toFixed(1)] writes "12.5", [parseInt] reads 12 from it, and the data
    point is 12, which is half a unit away from the usage and so is no
    rounding of it to one decimal place.  The fixed parameters are as the
    claim lists them. *)
Lemma cpuAvg_at_12_5 :
  (value_of Sample.usage_12_5 == 25 # 2)%Q
  ∧ (rounded_to_one_decimal Sample.usage_12_5 == 125 # 10)%Q
  ∧ toFixed Sample.no_exponent_notation Sample.usage_12_5 1 = "12.5"
  ∧ cpuAvg Sample.no_exponent_notation Sample.untranslated Sample.cpu_12_5
    = {| label := false;
         data := ("Load", Int 12);
         units := "%";
         diameter := 136;
         fontSize := 28;
         max := 100;
         subtitle := "Avg Usage" |}
  ∧ ¬ (inject_Z 12 == rounded_to_one_decimal Sample.usage_12_5)%Q
  ∧ ¬ (Qabs (inject_Z 12 - value_of Sample.usage_12_5) <= 1 # 20)%Q.
Proof.
  split; [reflexivity|]. split; [reflexivity|]. split; [reflexivity|].
  split; [reflexivity|]. split.
  - vm_compute. discriminate.
  - vm_compute. intros Hle. by apply Hle.
Qed.

End GaugeFacts.

(** * Further properties *)

(** ** The tile view *)

Lemma poolsInfo_value st :
  poolsInfo st = Some (last_per_pool (pool_infos (selectedEnclosureSlots st))).
Proof.
  unfold poolsInfo. rewrite pool_entries. simpl.
  rewrite new_Map_last_per_pool. unfold Map_values.
  rewrite <- list_fmap_compose. f_equal. apply list_fmap_id.
Qed.

Lemma unhealthyPoolsInfo_value st :
  unhealthyPoolsInfo st
  = Some (filter (λ info, disk_status info ≠ Online)
            (last_per_pool (pool_infos (selectedEnclosureSlots st)))).
Proof. unfold unhealthyPoolsInfo. by rewrite poolsInfo_value. Qed.

Lemma elem_of_pool_infos slots info :
  info ∈ pool_infos slots ↔ ∃ slot, slot ∈ slots ∧ pool_info slot = Some info.
Proof. unfold pool_infos. apply list_elem_of_omap. Qed.

Lemma pool_names_first_elem infos name :
  name ∈ pool_name <$> first_per_pool infos ↔ name ∈ pool_name <$> infos.
Proof.
  induction infos as [|info infos IH]; [done|].
  simpl. rewrite !elem_of_cons, <- IH. clear IH.
  rewrite !list_elem_of_fmap. split.
  - intros [->|(other & -> & Hin)]; [by left|].
    apply list_elem_of_filter in Hin as [_ Hin]. right. by exists other.
  - intros [->|(other & -> & Hin)]; [by left|].
    destruct (decide (pool_name other = pool_name info)) as [Heq|Hne]; [by left|].
    right. exists other. split; [done|]. by apply list_elem_of_filter.
Qed.

Lemma last_same_name_elem infos info :
  last (filter (λ other, pool_name other = pool_name info) infos) = Some info →
  info ∈ last_per_pool infos.
Proof.
  induction infos as [|first infos IH]; [done|].
  simpl. rewrite filter_cons. case_decide as Hname.
  - intros Hlast. apply elem_of_cons. left.
    rewrite (list_filter_iff (λ other, pool_name other = pool_name first)
               (λ other, pool_name other = pool_name info))
      by (intros other; by rewrite Hname).
    rewrite last_cons in Hlast.
    destruct (last (filter _ infos)) as [found|]; by injection Hlast as ->.
  - intros Hlast. apply elem_of_cons. right.
    apply list_elem_of_filter. split; [congruence|by apply IH].
Qed.

Lemma elem_of_last_per_pool infos info :
  info ∈ last_per_pool infos
  ↔ last (filter (λ other, pool_name other = pool_name info) infos) = Some info.
Proof. split; [apply last_per_pool_is_last|apply last_same_name_elem]. Qed.

(** X1: [poolsInfo] never throws, and it loses no pool and invents none:
    a pool name occurs in it exactly when some slot of the selected
    enclosure belongs to that pool, and each of its entries is the
    descriptor of one of the slots. *)
Theorem poolsInfo_pools st :
  ∃ result,
    poolsInfo st = Some result
    ∧ (∀ name, name ∈ pool_name <$> result
        ↔ ∃ slot info, slot ∈ selectedEnclosureSlots st
                       ∧ pool_info slot = Some info ∧ pool_name info = name)
    ∧ (∀ info, info ∈ result →
        ∃ slot, slot ∈ selectedEnclosureSlots st ∧ pool_info slot = Some info).
Proof.
  exists (last_per_pool (pool_infos (selectedEnclosureSlots st))).
  split; [apply poolsInfo_value|]. split.
  - intros name. rewrite pool_names_last_first, pool_names_first_elem.
    rewrite list_elem_of_fmap. split.
    + intros (info & -> & (slot & Hslot & Hinfo)%elem_of_pool_infos).
      by exists slot, info.
    + intros (slot & info & Hslot & Hinfo & <-). exists info. split; [done|].
      apply elem_of_pool_infos. by exists slot.
  - intros info Hin%last_per_pool_is_last.
    apply last_Some_elem_of, list_elem_of_filter in Hin as [_ Hin].
    by apply elem_of_pool_infos.
Qed.

(** X2: [unhealthyPoolsInfo] lists a descriptor exactly when it is the
    descriptor of the last slot of its pool and its disk status is not
    [Online]; the status of the earlier slots of a pool does not count. *)
Theorem unhealthyPoolsInfo_last_status st :
  let infos := pool_infos (selectedEnclosureSlots st) in
  ∃ result,
    unhealthyPoolsInfo st = Some result
    ∧ ∀ info, info ∈ result
        ↔ disk_status info ≠ Online
          ∧ last (filter (λ other, pool_name other = pool_name info) infos) = Some info.
Proof.
  simpl. eexists. split; [apply unhealthyPoolsInfo_value|].
  intros info. by rewrite list_elem_of_filter, elem_of_last_per_pool.
Qed.

(** X3: [failedDisks] against [unhealthyPoolsInfo].  A faulted entry of
    [unhealthyPoolsInfo] always comes from a slot in [failedDisks]; a slot
    in [failedDisks] has its pool reported in [unhealthyPoolsInfo] with its
    own descriptor when it is the last slot of that pool. *)
Theorem failedDisks_unhealthyPoolsInfo st :
  let infos := pool_infos (selectedEnclosureSlots st) in
  ∃ unhealthy,
    unhealthyPoolsInfo st = Some unhealthy
    ∧ (∀ info, info ∈ unhealthy → disk_status info = Faulted →
        ∃ slot, slot ∈ failedDisks st ∧ pool_info slot = Some info)
    ∧ (∀ slot info, slot ∈ failedDisks st → pool_info slot = Some info →
        last (filter (λ other, pool_name other = pool_name info) infos) = Some info →
        info ∈ unhealthy).
Proof.
  simpl. eexists. split; [apply unhealthyPoolsInfo_value|]. split.
  - intros info [_ Hin]%list_elem_of_filter Hfaulted.
    apply last_per_pool_is_last, last_Some_elem_of, list_elem_of_filter in Hin as [_ Hin].
    apply elem_of_pool_infos in Hin as (slot & Hslot & Hinfo).
    exists slot. split; [|done].
    apply list_elem_of_filter. split; [|done]. by rewrite Hinfo, <- Hfaulted.
  - intros slot info [Hfaulted _]%list_elem_of_filter Hinfo Hlast.
    apply list_elem_of_filter. split; [|by apply last_same_name_elem].
    rewrite Hinfo in Hfaulted. simpl in Hfaulted. injection Hfaulted as ->. done.
Qed.

Lemma findIndex_from_no_match payload wanted i :
  (∀ e, e ∈ payload → id e ≠ Some wanted) →
  findIndex_from (Some <$> payload) wanted i = Some (-1).
Proof.
  revert i. induction payload as [|e payload IH]; intros i Hnone; [done|].
  simpl. rewrite decide_False by (apply Hnone; left).
  apply IH. intros e' He'. apply Hnone. by right.
Qed.

Lemma tiles_empty st :
  selectedEnclosure st = None →
  selectedEnclosureSlots st = [] ∧ poolsInfo st = Some []
  ∧ unhealthyPoolsInfo st = Some [] ∧ failedDisks st = [].
Proof.
  intros Hnone.
  assert (Hslots : selectedEnclosureSlots st = [])
    by (unfold selectedEnclosureSlots; by rewrite Hnone).
  split; [done|].
  rewrite unhealthyPoolsInfo_value, poolsInfo_value. unfold failedDisks.
  by rewrite Hslots.
Qed.

(** X4: selecting an id that none of the enclosures in the array has sets
    the index to -1, so that [selectedEnclosure] reads [enclosures[-1]],
    the own property [-1] of the array.  On an array without that property
    (every array as a remote call delivered it: only a rename made while
    the index was -1 adds one) no enclosure is selected:
    [selectedEnclosure] is undefined, the slot projections of the store
    and of the tile view are empty, and [expanders], which reads
    [selectedEnclosure().elements] unguarded, throws. *)
Theorem selectEnclosure_unknown_id Expander
    (SasExpander : EnclosureElements → option (list (N * Expander)))
    store payload wanted :
  items (enclosures (Js.val (state store))) = Some <$> payload →
  (∀ e, e ∈ payload → id e ≠ Some wanted) →
  let before := Js.val (state store) in
  let after := Js.val (state (updater selectEnclosure wanted store)) in
  selectedEnclosureIndex after = -1
  ∧ enclosures after = enclosures before
  ∧ selectedEnclosure after = props (enclosures before) !! (-1)
  ∧ (props (enclosures before) !! (-1) = None →
       selectedEnclosure after = None
       ∧ selectedEnclosureSlots after = []
       ∧ poolsInfo after = Some []
       ∧ unhealthyPoolsInfo after = Some []
       ∧ failedDisks after = []
       ∧ expanders Expander SasExpander after = None).
Proof.
  intros Hitems Hnone. simpl.
  assert (Hfind : findIndex_from (items (enclosures (Js.val (state store)))) wanted 0
                  = Some (-1))
    by (rewrite Hitems; by apply findIndex_from_no_match).
  assert (Hidx : selectedEnclosureIndex
                   (Js.val (state (updater selectEnclosure wanted store))) = -1
                 ∧ enclosures (Js.val (state (updater selectEnclosure wanted store)))
                   = enclosures (Js.val (state store))).
  { unfold updater. rewrite (selectEnclosure_run _ _ _ _ Hfind).
    case_decide as Hsel; simpl; [by rewrite <- Hsel|done]. }
  destruct Hidx as [Hidx Henc].
  assert (Hsel : selectedEnclosure
                   (Js.val (state (updater selectEnclosure wanted store)))
                 = props (enclosures (Js.val (state store))) !! (-1)).
  { unfold selectedEnclosure. rewrite Hidx, Henc. by unfold array_get. }
  split; [done|]. split; [done|]. split; [done|].
  intros Hprop. rewrite Hprop in Hsel. split; [done|].
  destruct (tiles_empty _ Hsel) as (? & ? & ? & ?).
  repeat (split; [done|]). unfold expanders. by rewrite Hsel.
Qed.

Lemma selectEnclosure_unknown_id_witness :
  expanders unit (λ _, None)
    (Js.val (state (updater selectEnclosure "c" Sample.loaded))) = None
  ∧ poolsInfo (Js.val (state (updater selectEnclosure "c" Sample.loaded))) = Some [].
Proof.
  assert (Hitems : items (enclosures (Js.val (state Sample.loaded)))
                   = Some <$> [Sample.enclosure_a; Sample.enclosure_b]) by reflexivity.
  assert (Hnone : ∀ e, e ∈ [Sample.enclosure_a; Sample.enclosure_b] → id e ≠ Some "c").
  { intros e He. apply elem_of_cons in He as [->|He]; [discriminate|].
    apply elem_of_cons in He as [->|He]; [discriminate|]. by apply elem_of_nil in He. }
  pose proof (selectEnclosure_unknown_id unit (λ _, None) Sample.loaded _ "c" Hitems Hnone)
    as H.
  simpl in H. destruct H as (_ & _ & _ & H). destruct (H eq_refl) as (_ & _ & Hpools & _ & _ & Hexp).
  split; [exact Hexp|exact Hpools].
Defined.

(** X5: [update()] does not re-validate the selection.  When the reload
    delivers so few enclosures that [selectedEnclosureIndex] is past the
    end, the index stays as it was, [selectedEnclosure] becomes undefined
    and the slot projections become empty. *)
Theorem update_stale_selection store payload :
  Z.of_nat (length payload) ≤ selectedEnclosureIndex (Js.val (state store)) →
  let after := Js.val (state (update (Succeeds payload) store)) in
  selectedEnclosureIndex after = selectedEnclosureIndex (Js.val (state store))
  ∧ selectedSlot after = selectedSlot (Js.val (state store))
  ∧ selectedEnclosure after = None
  ∧ selectedEnclosureSlots after = []
  ∧ poolsInfo after = Some []
  ∧ failedDisks after = [].
Proof.
  intros Hpast. simpl.
  assert (Hsel : selectedEnclosure (Js.val (state (update (Succeeds payload) store))) = None).
  { unfold selectedEnclosure, array_get. simpl.
    rewrite decide_True by lia.
    rewrite lookup_ge_None_2; [done|]. rewrite length_fmap. lia. }
  destruct (tiles_empty _ Hsel) as (? & ? & ? & ?). done.
Qed.

Lemma update_stale_selection_witness :
  selectedEnclosureIndex
    (Js.val (state (update (Succeeds [Sample.enclosure_a]) Sample.loaded))) = 1
  ∧ selectedEnclosure
      (Js.val (state (update (Succeeds [Sample.enclosure_a]) Sample.loaded))) = None.
Proof.
  assert (Hpast : Z.of_nat (length [Sample.enclosure_a])
                  ≤ selectedEnclosureIndex (Js.val (state Sample.loaded)))
    by (vm_compute; discriminate).
  pose proof (update_stale_selection Sample.loaded [Sample.enclosure_a] Hpast) as H.
  simpl in H. destruct H as (H1 & _ & H2 & _). split; [exact H1|exact H2].
Defined.

(** X6: choosing a view, a slot or a side never changes what the tiles
    show: [selectedEnclosure], [poolsInfo], [unhealthyPoolsInfo] and
    [failedDisks] are as before; [setCurrentView] in particular sets
    [selectedView] and nothing the tiles are computed from. *)
Theorem selection_keeps_tiles store op :
  match op with
  | DoSelectSlot _ | DoSelectView _ | DoSelectSide _ => True
  | _ => False
  end →
  let before := Js.val (state store) in
  let after := Js.val (state (step store (operation_step op))) in
  selectedEnclosure after = selectedEnclosure before
  ∧ poolsInfo after = poolsInfo before
  ∧ unhealthyPoolsInfo after = unhealthyPoolsInfo before
  ∧ failedDisks after = failedDisks before
  ∧ (∀ view, op = DoSelectView view →
       step store (operation_step op) = setCurrentView view store
       ∧ selectedView after = view
       ∧ selectedSlot after = selectedSlot before
       ∧ selectedSide after = selectedSide before).
Proof.
  intros Hop. simpl.
  assert (Hsame : enclosures (Js.val (state (step store (operation_step op))))
                  = enclosures (Js.val (state store))
                  ∧ selectedEnclosureIndex (Js.val (state (step store (operation_step op))))
                    = selectedEnclosureIndex (Js.val (state store))).
  { destruct op; try done; simpl; unfold updater; simpl; try done.
    unfold selectSide. by case_decide. }
  destruct Hsame as [Henc Hidx].
  assert (Hsel : selectedEnclosure (Js.val (state (step store (operation_step op))))
                 = selectedEnclosure (Js.val (state store)))
    by (unfold selectedEnclosure; by rewrite Henc, Hidx).
  assert (Hslots : selectedEnclosureSlots (Js.val (state (step store (operation_step op))))
                   = selectedEnclosureSlots (Js.val (state store)))
    by (unfold selectedEnclosureSlots; by rewrite Hsel).
  split; [done|].
  rewrite !unhealthyPoolsInfo_value, !poolsInfo_value. unfold failedDisks.
  rewrite Hslots. repeat (split; [done|]).
  intros view ->. done.
Qed.

Lemma selection_keeps_tiles_witness :
  poolsInfo (Js.val (state (setCurrentView (OtherView "status") Scenario.shelf_store)))
  = Some [Sample.tank_faulted].
Proof.
  pose proof (selection_keeps_tiles Scenario.shelf_store
                (DoSelectView (OtherView "status")) I) as H.
  simpl in H. destruct H as (_ & H & _).
  exact (eq_trans H eq_refl).
Defined.

(** ** The store: lookup, renaming, loading *)

Lemma items_set_lookup l n v : items_set l n v !! n = Some (Some v).
Proof.
  unfold items_set. case_decide as Hn.
  - by apply list_lookup_insert_eq.
  - rewrite lookup_app_r by lia.
    rewrite lookup_app_r by (rewrite length_replicate; lia).
    rewrite length_replicate. by replace (n - length l - (n - length l))%nat with 0%nat by lia.
Qed.

Lemma items_set_lookup_other l n j v :
  j ≠ n → (j < length l)%nat → items_set l n v !! j = l !! j.
Proof.
  intros Hne Hj. unfold items_set. case_decide.
  - by apply list_lookup_insert_ne.
  - by apply lookup_app_l.
Qed.

Lemma items_set_twice l n v1 v2 : items_set (items_set l n v1) n v2 = items_set l n v2.
Proof.
  unfold items_set at 1. rewrite length_items_set.
  rewrite decide_True by (case_decide; lia).
  unfold items_set. case_decide as Hn.
  - apply list_insert_insert_eq.
  - rewrite insert_app_r_alt by lia.
    rewrite insert_app_r_alt by (rewrite length_replicate; lia).
    rewrite length_replicate.
    by replace (n - length l - (n - length l))%nat with 0%nat by lia.
Qed.

Lemma with_label_twice enclosure label1 label2 :
  with_label (Some (with_label enclosure label1)) label2 = with_label enclosure label2.
Proof. by destruct enclosure. Qed.

Lemma findIndex_from_hole l rest wanted i :
  (∀ e, Some e ∈ l → id e ≠ Some wanted) →
  findIndex_from (l ++ None :: rest) wanted i = None.
Proof.
  revert i. induction l as [|[e|] l IH]; intros i Hnone; simpl; [done| |done].
  rewrite decide_False by (apply Hnone; left).
  apply IH. intros e' He'. apply Hnone. by right.
Qed.

(** X7: what [selectEnclosure(id)] selects.  Whenever the lookup does not
    throw, and whatever index was selected before (a stale one too), the
    index afterwards is the one [findIndex] returned: either -1, and then
    no enclosure has the id, or a valid index, and then [selectedEnclosure]
    is the first enclosure of the sequence that has the id. *)
Theorem selectEnclosure_selects store wanted index :
  findIndex_from (items (enclosures (Js.val (state store)))) wanted 0 = Some index →
  let before := Js.val (state store) in
  let after := Js.val (state (updater selectEnclosure wanted store)) in
  selectedEnclosureIndex after = index
  ∧ enclosures after = enclosures before
  ∧ ((index = -1 ∧ ∀ e, Some e ∈ items (enclosures before) → id e ≠ Some wanted)
     ∨ (0 ≤ index < Z.of_nat (length (items (enclosures before)))
        ∧ (∃ e, selectedEnclosure after = Some e ∧ id e = Some wanted)
        ∧ ∀ j e, (j < Z.to_nat index)%nat →
                 items (enclosures before) !! j = Some (Some e) → id e ≠ Some wanted)).
Proof.
  intros Hfind. simpl.
  assert (Hafter : selectedEnclosureIndex
                     (Js.val (state (updater selectEnclosure wanted store))) = index
                   ∧ enclosures (Js.val (state (updater selectEnclosure wanted store)))
                     = enclosures (Js.val (state store))).
  { unfold updater. rewrite (selectEnclosure_run _ _ _ _ Hfind).
    case_decide as Hsel; simpl; [by rewrite <- Hsel|done]. }
  destruct Hafter as [Hidx Henc]. split; [done|]. split; [done|].
  destruct (findIndex_from_found _ _ _ _ Hfind) as [?|(Hle & (e & Hlook & He) & Hbefore)];
    [by left|right].
  rewrite Z.sub_0_r in *.
  destruct (findIndex_from_bounds _ _ _ _ Hfind) as [->|Hin]; [lia|].
  split; [lia|]. split; [|done].
  exists e. split; [|done].
  unfold selectedEnclosure, array_get. rewrite Hidx, Henc.
  rewrite decide_True by lia. by rewrite Hlook.
Qed.

Lemma selectEnclosure_selects_witness :
  selectedEnclosureIndex (Js.val (state (updater selectEnclosure "a" Sample.loaded))) = 0
  ∧ ∃ e, selectedEnclosure (Js.val (state (updater selectEnclosure "a" Sample.loaded)))
         = Some e ∧ id e = Some "a".
Proof.
  assert (Hfind : findIndex_from
            (items (enclosures (Js.val (state Sample.loaded)))) "a" 0 = Some 0)
    by reflexivity.
  pose proof (selectEnclosure_selects Sample.loaded "a" 0 Hfind) as H.
  simpl in H. destruct H as (Hidx & _ & [[Hnone _]|(_ & Hsel & _)]); [discriminate|].
  split; [exact Hidx|exact Hsel].
Defined.

(** X8: [renameSelectedEnclosure(label)] with a valid index of a loaded
    enclosure replaces the label of that enclosure and nothing else: its
    id and elements, every other enclosure, the length of the sequence and
    every other state field are as before. *)
Theorem renameSelectedEnclosure_in_range store new_label i e :
  selectedEnclosureIndex (Js.val (state store)) = Z.of_nat i →
  items (enclosures (Js.val (state store))) !! i = Some (Some e) →
  let before := Js.val (state store) in
  let after := Js.val (state (updater renameSelectedEnclosure new_label store)) in
  let renamed := {| id := id e; label := Some new_label; elements := elements e |} in
  items (enclosures after) !! i = Some (Some renamed)
  ∧ selectedEnclosure after = Some renamed
  ∧ (∀ j, j ≠ i → items (enclosures after) !! j = items (enclosures before) !! j)
  ∧ length (items (enclosures after)) = length (items (enclosures before))
  ∧ isLoading after = isLoading before
  ∧ selectedEnclosureIndex after = selectedEnclosureIndex before
  ∧ selectedSlot after = selectedSlot before
  ∧ selectedView after = selectedView before
  ∧ selectedSide after = selectedSide before.
Proof.
  intros Hidx Hlook. simpl.
  assert (Hlen : (i < length (items (enclosures (Js.val (state store)))))%nat)
    by (apply lookup_lt_is_Some; eauto).
  unfold updater, renameSelectedEnclosure, selectedEnclosure. simpl.
  rewrite Hidx. unfold array_set, array_get, spread_array. simpl.
  rewrite !decide_True by lia. simpl. rewrite Nat2Z.id, Hlook. simpl.
  rewrite items_set_lookup. split; [done|]. split; [done|]. split.
  - intros j Hj. destruct (decide (j < length (items (enclosures (Js.val (state store)))))%nat).
    + by apply items_set_lookup_other.
    + rewrite !lookup_ge_None_2; [done|lia|].
      rewrite length_items_set, decide_True by done. lia.
  - rewrite length_items_set, decide_True by done. done.
Qed.

Lemma renameSelectedEnclosure_in_range_witness :
  items (enclosures (Js.val (state
    (updater renameSelectedEnclosure "Rack 2" Sample.loaded))))
  = [Some Sample.enclosure_a;
     Some {| id := Some "b"; label := Some "Rack 2"; elements := None |}].
Proof.
  assert (Hidx : selectedEnclosureIndex (Js.val (state Sample.loaded)) = Z.of_nat 1)
    by reflexivity.
  assert (Hlook : items (enclosures (Js.val (state Sample.loaded))) !! 1%nat
                  = Some (Some Sample.enclosure_b)) by reflexivity.
  pose proof (renameSelectedEnclosure_in_range Sample.loaded "Rack 2" 1 _ Hidx Hlook) as H.
  simpl in H. destruct H as (H1 & _). reflexivity.
Defined.

(** X9: after [renameSelectedEnclosure(label)], in every state,
    [selectedEnclosure] is defined and carries the new label: where the
    index names no enclosure (past the end, a hole, or -1) the assignment
    creates an object that has the label and nothing else. *)
Theorem renameSelectedEnclosure_selected_label store new_label :
  let before := Js.val (state store) in
  let after := Js.val (state (updater renameSelectedEnclosure new_label store)) in
  (∃ e, selectedEnclosure after = Some e ∧ label e = Some new_label)
  ∧ (selectedEnclosure before = None ∨ selectedEnclosureIndex before < 0 →
     selectedEnclosure after
     = Some {| id := None; label := Some new_label; elements := None |}).
Proof.
  cbv zeta.
  assert (Hsel : selectedEnclosure
      (Js.val (state (updater renameSelectedEnclosure new_label store)))
    = Some (with_label (array_get (spread_array (enclosures (Js.val (state store))))
              (selectedEnclosureIndex (Js.val (state store)))) new_label)).
  { unfold updater, renameSelectedEnclosure, selectedEnclosure. simpl.
    unfold array_set, array_get. case_decide; simpl.
    - by rewrite items_set_lookup.
    - by rewrite lookup_insert_eq. }
  rewrite Hsel. split.
  - eexists. split; [done|]. by destruct (array_get _ _).
  - unfold selectedEnclosure, array_get, spread_array. simpl.
    case_decide; [|done].
    intros [Hnone|?]; [|lia]. by rewrite Hnone.
Qed.

(** X10: a rename with the index strictly past the end leaves holes in
    the sequence, and [selectEnclosure] then throws on them: for an id
    that no enclosure of the old sequence has, the lookup reads [.id] of an
    undefined element, and the store is left as it was. *)
Theorem rename_past_end_blocks_selection store new_label wanted :
  Z.of_nat (length (items (enclosures (Js.val (state store)))))
    < selectedEnclosureIndex (Js.val (state store)) →
  (∀ e, Some e ∈ items (enclosures (Js.val (state store))) → id e ≠ Some wanted) →
  let renamed := updater renameSelectedEnclosure new_label store in
  Z.of_nat (length (items (enclosures (Js.val (state renamed)))))
    = selectedEnclosureIndex (Js.val (state store)) + 1
  ∧ selectEnclosure (state renamed) wanted (heap renamed) = None
  ∧ updater selectEnclosure wanted renamed = renamed.
Proof.
  intros Hpast Hnone. simpl.
  assert (Hthrow : selectEnclosure
            (state (updater renameSelectedEnclosure new_label store)) wanted
            (heap (updater renameSelectedEnclosure new_label store)) = None).
  { apply selectEnclosure_throws.
    unfold updater, renameSelectedEnclosure. simpl.
    unfold array_set, spread_array. simpl. rewrite decide_True by lia. simpl.
    unfold items_set. rewrite decide_False by lia.
    destruct (Z.to_nat (selectedEnclosureIndex (Js.val (state store)))
              - length (items (enclosures (Js.val (state store)))))%nat as [|k] eqn:Hk;
      [lia|].
    simpl. by apply findIndex_from_hole. }
  split.
  - unfold updater, renameSelectedEnclosure. simpl.
    unfold array_set, spread_array. simpl. rewrite decide_True by lia. simpl.
    rewrite length_items_set, decide_False by lia. lia.
  - split; [done|]. unfold updater at 1. by rewrite Hthrow.
Qed.

Lemma rename_past_end_blocks_selection_witness :
  items (enclosures (Js.val (state
    (updater renameSelectedEnclosure "Spare" Scenario.emptied))))
  = [None; None; Some {| id := None; label := Some "Spare"; elements := None |}]
  ∧ updater selectEnclosure "a" (updater renameSelectedEnclosure "Spare" Scenario.emptied)
    = updater renameSelectedEnclosure "Spare" Scenario.emptied.
Proof.
  assert (Hpast : Z.of_nat (length (items (enclosures (Js.val (state Scenario.emptied)))))
                  < selectedEnclosureIndex (Js.val (state Scenario.emptied)))
    by reflexivity.
  assert (Hnone : ∀ e, Some e ∈ items (enclosures (Js.val (state Scenario.emptied))) →
                       id e ≠ Some "a")
    by (intros e He; simpl in He; by apply elem_of_nil in He).
  pose proof (rename_past_end_blocks_selection Scenario.emptied "Spare" "a" Hpast Hnone) as H.
  simpl in H. destruct H as (_ & _ & H). split; [reflexivity|exact H].
Defined.

(** X11: renaming twice is renaming once with the last label: in every
    state, [renameSelectedEnclosure(l2)] after [renameSelectedEnclosure(l1)]
    gives the state that [renameSelectedEnclosure(l2)] gives alone. *)
Theorem renameSelectedEnclosure_twice store label1 label2 :
  Js.val (state (updater renameSelectedEnclosure label2
                   (updater renameSelectedEnclosure label1 store)))
  = Js.val (state (updater renameSelectedEnclosure label2 store)).
Proof.
  unfold updater, renameSelectedEnclosure. simpl. f_equal.
  unfold array_set, array_get, spread_array. simpl.
  case_decide as Hidx; simpl; [|done].
  rewrite items_set_lookup.
  change (mjoin (Some (Some ?x))) with (Some x).
  by rewrite with_label_twice, items_set_twice.
Qed.

(** X12: a successful [initiate()] leaves a fully reset store, whatever
    was selected before: the enclosures are the payload, nothing is
    loading, the first enclosure (if there is one) is selected, the slot
    and side are cleared and the view is [Pools]; the index is valid, no
    error is reported and exactly one remote call is issued. *)
Theorem initiate_success store payload :
  let after := initiate (Succeeds payload) store in
  Js.val (state after)
  = {| enclosures := array_of payload;
       isLoading := false;
       selectedEnclosureIndex := 0;
       selectedSlot := None;
       selectedView := Pools;
       selectedSide := None |}
  ∧ index_valid (Js.val (state after))
  ∧ selectedEnclosure (Js.val (state after)) = head payload
  ∧ errorHandler after = errorHandler store
  ∧ ws after = Initiate :: ws store.
Proof.
  simpl. split; [done|]. split; [|split; [|done]].
  - unfold index_valid. simpl. rewrite length_fmap.
    destruct payload; [by right|left; simpl; lia].
  - unfold selectedEnclosure, array_get. simpl. by destruct payload.
Qed.

(** X13: on a store that had not subscribed before and then subscribed
    under a non-empty id handed out by the notifier,
    [removeListenerForDiskUpdates()] removes the stream from the notifier
    but keeps the subscription id in the store, so that a later
    [addListenerForDiskUpdates()] subscribes nothing: the registry stays
    without a stream of this store, and notifications no longer trigger
    [update()]. *)
Theorem removeListener_then_add store first_id second_id :
  Js.truthy (Some first_id) = true →
  disksUpdateSubscriptionId store = None →
  triggers store = [] →
  (∀ k subject, disksUpdateService store !! k = Some subject → (subject < heap store)%nat) →
  let removed := removeListenerForDiskUpdates (addListenerForDiskUpdates first_id store) in
  let again := addListenerForDiskUpdates second_id removed in
  disksUpdateService removed = delete first_id (disksUpdateService store)
  ∧ disksUpdateSubscriptionId removed = Some first_id
  ∧ again = removed
  ∧ update_calls (disks_updated again) = update_calls again.
Proof.
  intros Htruthy Hnone Hno_triggers Hclosed. simpl.
  assert (Hremoved : removeListenerForDiskUpdates (addListenerForDiskUpdates first_id store)
    = {| heap := S (heap store);
         state := state store;
         disksUpdateSubscriptionId := Some first_id;
         triggers := [heap store];
         ws := ws store;
         disksUpdateService := delete first_id (disksUpdateService store);
         errorHandler := errorHandler store |}).
  { unfold removeListenerForDiskUpdates, addListenerForDiskUpdates, addSubscriber.
    rewrite Hnone, Hno_triggers. simpl. by rewrite delete_insert_eq. }
  rewrite (addListenerForDiskUpdates_subscribed second_id) by (by rewrite Hremoved).
  rewrite Hremoved. simpl. repeat (split; [done|]).
  unfold disks_updated. simpl.
  match goal with |- update_calls (foldr notify ?s ?l) = _ =>
    destruct (notify_all_calls (heap store) l s eq_refl) as [_ ->] end.
  rewrite filter_no_match; [simpl; lia|].
  intros s [[k s'] [-> Hin]]%list_elem_of_fmap.
  apply elem_of_map_to_list in Hin. simpl.
  apply lookup_delete_Some in Hin as [_ Hin]. apply Hclosed in Hin. lia.
Qed.

Lemma removeListener_then_add_witness :
  addListenerForDiskUpdates "id-2"
    (removeListenerForDiskUpdates (addListenerForDiskUpdates "id-1" Sample.fresh))
  = removeListenerForDiskUpdates (addListenerForDiskUpdates "id-1" Sample.fresh)
  ∧ update_calls (disks_updated (addListenerForDiskUpdates "id-2"
      (removeListenerForDiskUpdates (addListenerForDiskUpdates "id-1" Sample.fresh))))
    = 0%nat.
Proof.
  assert (Hclosed : ∀ k subject,
            disksUpdateService Sample.fresh !! k = Some subject →
            (subject < heap Sample.fresh)%nat)
    by (intros k subject Hin; simpl in Hin; by rewrite lookup_empty in Hin).
  pose proof (removeListener_then_add Sample.fresh "id-1" "id-2"
                eq_refl eq_refl eq_refl Hclosed) as H.
  simpl in H. destruct H as (_ & _ & H1 & H2). split; [exact H1|exact H2].
Defined.

(** X14: [selectSlot], [selectView] and [renameSelectedEnclosure] have no
    no-op path: in every store that can be reached, each call installs a
    state object that was not there before, also when the value passed is
    the one already stored. *)
Theorem updaters_install_new_object registry free steps op :
  (0 < free)%nat →
  match op with
  | DoSelectSlot _ | DoSelectView _ | DoRenameSelectedEnclosure _ => True
  | _ => False
  end →
  let reached := run steps (construct registry free) in
  Js.addr (state (step reached (operation_step op))) = heap reached
  ∧ Js.addr (state (step reached (operation_step op))) ≠ Js.addr (state reached).
Proof.
  intros Hfree Hop. simpl.
  pose proof (run_allocated registry free steps Hfree) as Halloc.
  destruct op; try done; simpl; split; try done; lia.
Qed.

Lemma updaters_install_new_object_witness :
  selectedView (Js.val (state Sample.loaded)) = Pools
  ∧ Js.addr (state (step Sample.loaded (SelectView Pools))) ≠ Js.addr (state Sample.loaded).
Proof.
  split; [reflexivity|].
  exact (proj2 (updaters_install_new_object ∅ 1%nat
                  [Reset; Loaded [Sample.enclosure_a; Sample.enclosure_b]; Settled;
                   SelectEnclosure "b"; SelectSide (Some Rear)]
                  (DoSelectView Pools) (Nat.lt_0_succ 0) I)).
Defined.

(** ** The CPU gauge: usage as a percentage *)

Section GaugeRange.

Import Gauge.
Local Open Scope string_scope.
Local Open Scope Z_scope.

Variable Number_toString : spec_float → string.
Variable translate_instant : string → string.

Lemma cpuAvg_data_finite cpuData negative m e :
  usage (average cpuData) = S754_finite negative m e →
  below_1e21 m e = true →
  data (cpuAvg Number_toString translate_instant cpuData)
  = ("Load", Int (if negative then - (nearest m e 1 / 10) else nearest m e 1 / 10)).
Proof.
  intros Husage Hbelow. unfold cpuAvg. simpl. rewrite Husage. unfold toFixed.
  rewrite Hbelow. by rewrite parseInt_fixed_digits by apply nearest_nonneg.
Qed.

Lemma value_at_most m e bound :
  0 < bound →
  (value_of (S754_finite false m e) <= inject_Z bound)%Q →
  if 0 <=? e then Z.pos m * 2 ^ e ≤ bound else Z.pos m ≤ bound * 2 ^ (- e).
Proof.
  intros Hbound. unfold value_of. destruct (Z.leb_spec 0 e) as [He|He].
  - unfold Qle, inject_Z. simpl. lia.
  - assert (0 < 2 ^ (- e)) by (apply Z.pow_pos_nonneg; lia).
    unfold Qle, inject_Z. cbn [Qnum Qden]. rewrite Z2Pos.id by done. lia.
Qed.

Lemma cpuAvg_data_zero cpuData negative :
  usage (average cpuData) = S754_zero negative →
  data (cpuAvg Number_toString translate_instant cpuData) = ("Load", Int 0).
Proof. intros Husage. unfold cpuAvg. simpl. by rewrite Husage. Qed.

Lemma value_of_negative m e : ¬ (0 <= value_of (S754_finite true m e))%Q.
Proof.
  unfold value_of. destruct (Z.leb_spec 0 e) as [He|He].
  - assert (0 < 2 ^ e) by (apply Z.pow_pos_nonneg; lia).
    unfold Qle, Qopp, inject_Z. simpl. nia.
  - unfold Qle, Qopp. cbn [Qnum Qden]. lia.
Qed.

Lemma cpuAvg_percentage_finite cpuData m e :
  usage (average cpuData) = S754_finite false m e →
  (value_of (S754_finite false m e) <= 100)%Q →
  ∃ z, data (cpuAvg Number_toString translate_instant cpuData) = ("Load", Int z)
       ∧ 0 ≤ z ≤ max (cpuAvg Number_toString translate_instant cpuData).
Proof.
  intros Husage Hle.
  pose proof (value_at_most m e 100 ltac:(lia) Hle) as Hbound.
  assert (Hbelow : below_1e21 m e = true).
  { unfold below_1e21. destruct (Z.leb_spec 0 e).
    - apply Z.ltb_lt. lia.
    - assert (0 < 2 ^ (- e)) by (apply Z.pow_pos_nonneg; lia).
      apply Z.ltb_lt. nia. }
  exists (nearest m e 1 / 10).
  split; [by rewrite (cpuAvg_data_finite _ false m e)|].
  pose proof (nearest_nonneg m e 1).
  split; [apply Z.div_pos; lia|]. simpl.
  apply Z.div_le_upper_bound; [lia|].
  unfold nearest. change (10 ^ Z.of_nat 1) with 10.
  destruct (Z.leb_spec 0 e); [lia|].
  assert (0 < 2 ^ (- e)) by (apply Z.pow_pos_nonneg; lia).
  apply Z.lt_succ_r, Z.div_lt_upper_bound; lia.
Qed.

Lemma cpuAvg_whole_number_finite cpuData negative m e k :
  usage (average cpuData) = S754_finite negative m e →
  below_1e21 m e = true →
  (value_of (S754_finite negative m e) == inject_Z k)%Q →
  data (cpuAvg Number_toString translate_instant cpuData) = ("Load", Int k).
Proof.
  intros Husage Hbelow Hk.
  rewrite (cpuAvg_data_finite _ negative m e) by done. f_equal. f_equal.
  assert (Hmag : nearest m e 1 / 10 = if negative then - k else k).
  { unfold nearest, value_of in *. change (10 ^ Z.of_nat 1) with 10.
    destruct (Z.leb_spec 0 e) as [He|He].
    - assert (Z.pos m * 2 ^ e = if negative then - k else k) as <-.
      { destruct negative; unfold Qeq, Qopp, inject_Z in Hk; simpl in Hk; lia. }
      replace (Z.pos m * 10 * 2 ^ e) with (Z.pos m * 2 ^ e * 10) by lia.
      by rewrite Z.div_mul.
    - assert (Hq : 0 < 2 ^ (- e)) by (apply Z.pow_pos_nonneg; lia).
      set (q := 2 ^ (- e)) in *.
      assert (Hm : Z.pos m = (if negative then - k else k) * q).
      { destruct negative; unfold Qeq, Qopp, inject_Z in Hk; cbn [Qnum Qden] in Hk;
          rewrite Z2Pos.id in Hk by done; lia. }
      rewrite Hm. set (a := if negative then - k else k) in *.
      assert (0 < a) by (pose proof (Pos2Z.is_pos m); nia).
      replace (2 * (a * q * 10) + q) with (10 * a * (2 * q) + q) by lia.
      rewrite Z.div_add_l by lia. rewrite (Z.div_small q (2 * q)) by lia.
      rewrite Z.add_0_r, Z.mul_comm. by rewrite Z.div_mul. }
  rewrite Hmag. destruct negative; lia.
Qed.

Lemma cpuAvg_close_to_usage_finite cpuData m e :
  usage (average cpuData) = S754_finite false m e →
  below_1e21 m e = true →
  ∃ z, data (cpuAvg Number_toString translate_instant cpuData) = ("Load", Int z)
       ∧ (inject_Z z <= value_of (S754_finite false m e) + (1 # 20))%Q
       ∧ (value_of (S754_finite false m e) - (19 # 20) <= inject_Z z)%Q.
Proof.
  intros Husage Hbelow. exists (nearest m e 1 / 10).
  split; [by rewrite (cpuAvg_data_finite _ false m e)|].
  pose proof (Z.div_mod (nearest m e 1) 10 ltac:(lia)) as Hdiv.
  pose proof (Z.mod_pos_bound (nearest m e 1) 10 ltac:(lia)) as Hmod.
  set (z := nearest m e 1 / 10) in *.
  unfold nearest, value_of in *. change (10 ^ Z.of_nat 1) with 10 in *.
  destruct (Z.leb_spec 0 e) as [He|He].
  - assert (Hz : z = Z.pos m * 2 ^ e).
    { subst z. replace (Z.pos m * 10 * 2 ^ e) with (Z.pos m * 2 ^ e * 10) by lia.
      apply Z.div_mul. lia. }
    rewrite Hz. generalize (Z.pos m * 2 ^ e) as p. intros p.
    unfold Qle, Qminus, Qplus, Qopp, inject_Z. cbn [Qnum Qden].
    rewrite ?Pos2Z.inj_mul. split; lia.
  - assert (Hq : 0 < 2 ^ (- e)) by (apply Z.pow_pos_nonneg; lia).
    set (q := 2 ^ (- e)) in *.
    pose proof (Z.div_mod (2 * (Z.pos m * 10) + q) (2 * q) ltac:(lia)) as Hdiv2.
    pose proof (Z.mod_pos_bound (2 * (Z.pos m * 10) + q) (2 * q) ltac:(lia)) as Hmod2.
    set (t := (2 * (Z.pos m * 10) + q) / (2 * q)) in *.
    unfold Qle, Qminus, Qplus, Qopp, inject_Z. cbn [Qnum Qden].
    rewrite ?Pos2Z.inj_mul, ?Z2Pos.id by done.
    split; nia.
Qed.

(** X17: for a finite usage between 0 and 100, both ends and either zero
    included, the data point of the gauge is an integer between 0 and
    100: it never exceeds the [max] of the gauge configuration. *)
Theorem cpuAvg_percentage cpuData :
  Number_isFinite (usage (average cpuData)) = true →
  (0 <= value_of (usage (average cpuData)))%Q →
  (value_of (usage (average cpuData)) <= 100)%Q →
  ∃ z, data (cpuAvg Number_toString translate_instant cpuData) = ("Load", Int z)
       ∧ 0 ≤ z ≤ max (cpuAvg Number_toString translate_instant cpuData).
Proof.
  destruct (usage (average cpuData)) as [negative|negative| |negative m e] eqn:Husage;
    intros Hfinite Hge Hle; try discriminate.
  - exists 0. split; [by apply (cpuAvg_data_zero _ negative)|]. simpl. lia.
  - destruct negative; [by apply value_of_negative in Hge|].
    by apply cpuAvg_percentage_finite with m e.
Qed.

(** X18: a finite usage that is a whole number of magnitude below 10^21,
    zero included, is shown as it is: when the exact value of the sample
    is the integer [k], the data point is [k]. *)
Theorem cpuAvg_whole_number cpuData k :
  magnitude_below_1e21 (usage (average cpuData)) = true →
  (value_of (usage (average cpuData)) == inject_Z k)%Q →
  data (cpuAvg Number_toString translate_instant cpuData) = ("Load", Int k).
Proof.
  destruct (usage (average cpuData)) as [negative|negative| |negative m e] eqn:Husage;
    intros Hbelow Hk; try discriminate.
  - assert (k = 0) as -> by (unfold Qeq, inject_Z in Hk; simpl in Hk; lia).
    by apply (cpuAvg_data_zero _ negative).
  - by apply cpuAvg_whole_number_finite with negative m e.
Qed.

(** X19: how far the data point is from the usage.  For a finite usage
    that is not negative (zero included) and below 10^21, the integer
    shown is at most 0.05 above the exact usage and at most 0.95 below
    it: the gauge shows the next integer only from .95 on. *)
Theorem cpuAvg_close_to_usage cpuData :
  magnitude_below_1e21 (usage (average cpuData)) = true →
  (0 <= value_of (usage (average cpuData)))%Q →
  ∃ z, data (cpuAvg Number_toString translate_instant cpuData) = ("Load", Int z)
       ∧ (inject_Z z <= value_of (usage (average cpuData)) + (1 # 20))%Q
       ∧ (value_of (usage (average cpuData)) - (19 # 20) <= inject_Z z)%Q.
Proof.
  destruct (usage (average cpuData)) as [negative|negative| |negative m e] eqn:Husage;
    intros Hbelow Hge; try discriminate.
  - exists 0. split; [by apply (cpuAvg_data_zero _ negative)|].
    split; by vm_compute.
  - destruct negative; [by apply value_of_negative in Hge|].
    by apply cpuAvg_close_to_usage_finite.
Qed.

End GaugeRange.

Lemma cpuAvg_percentage_witness :
  ∃ z, Gauge.data (Gauge.cpuAvg Sample.no_exponent_notation Sample.untranslated
                     (Scenario.cpu_of Scenario.usage_99_95)) = ("Load"%string, Gauge.Int z)
       ∧ 0 ≤ z ≤ 100.
Proof.
  assert (Hge : (0 <= Gauge.value_of Scenario.usage_99_95)%Q)
    by (vm_compute; discriminate).
  assert (Hle : (Gauge.value_of Scenario.usage_99_95 <= 100)%Q)
    by (vm_compute; discriminate).
  exact (cpuAvg_percentage Sample.no_exponent_notation Sample.untranslated
           (Scenario.cpu_of Scenario.usage_99_95) eq_refl Hge Hle).
Defined.

Lemma cpuAvg_whole_number_witness :
  Gauge.data (Gauge.cpuAvg Sample.no_exponent_notation Sample.untranslated
                (Scenario.cpu_of Scenario.usage_42)) = ("Load"%string, Gauge.Int 42)
  ∧ Gauge.data (Gauge.cpuAvg Sample.no_exponent_notation Sample.untranslated
                  (Scenario.cpu_of (S754_zero false))) = ("Load"%string, Gauge.Int 0).
Proof.
  split.
  - apply (cpuAvg_whole_number Sample.no_exponent_notation Sample.untranslated
             (Scenario.cpu_of Scenario.usage_42) 42); reflexivity.
  - apply (cpuAvg_whole_number Sample.no_exponent_notation Sample.untranslated
             (Scenario.cpu_of (S754_zero false)) 0); reflexivity.
Defined.

Lemma cpuAvg_close_to_usage_witness :
  ∃ z, Gauge.data (Gauge.cpuAvg Sample.no_exponent_notation Sample.untranslated
                     Sample.cpu_12_5) = ("Load"%string, Gauge.Int z)
       ∧ (inject_Z z <= Gauge.value_of Sample.usage_12_5 + (1 # 20))%Q
       ∧ (Gauge.value_of Sample.usage_12_5 - (19 # 20) <= inject_Z z)%Q.
Proof.
  assert (Hge : (0 <= Gauge.value_of Sample.usage_12_5)%Q)
    by (vm_compute; discriminate).
  exact (cpuAvg_close_to_usage Sample.no_exponent_notation Sample.untranslated
           Sample.cpu_12_5 eq_refl Hge).
Defined.

(** ** The effects at run time *)

Lemma operation_keeps_loading st op :
  isLoading (Js.val (state (step st (operation_step op)))) = isLoading (Js.val (state st))
  ∧ ws (step st (operation_step op)) = ws st.
Proof.
  destruct op; simpl; unfold updater; simpl; try done.
  - destruct (findIndex_from (items (enclosures (Js.val (state st)))) wanted 0)
      as [index|] eqn:Hfind.
    + rewrite (selectEnclosure_run _ _ _ _ Hfind). by case_decide.
    + by rewrite selectEnclosure_throws.
  - unfold selectSide. by case_decide.
Qed.

Lemma handle_settled_or_in_flight rt ev :
  settled_or_in_flight rt → settled_or_in_flight (handle rt ev).
Proof.
  intros Hrt. pose proof Hrt as (Hloading & Hinitiate & Hupdate).
  unfold settled_or_in_flight, next_call in *. destruct ev; simpl.
  - split; [by left|]. split.
    + intros inner [= <-]. simpl.
      destruct (initiate_inner rt); unfold next_call; simpl; lia.
    + intros inner Hin. apply Hupdate in Hin.
      destruct (initiate_inner rt); simpl; lia.
  - destruct (initiate_inner rt) as [inner|] eqn:Hinner; [|by rewrite Hinner].
    case_decide as Hmatch; [|by rewrite Hinner].
    destruct Hmatch as [<- Harrived]. destruct result as [payload|error]; simpl.
    + split; [by left|]. split; [|done].
      intros inner' [= <-]. simpl. by apply Hinitiate.
    + split; [done|]. split; [done|]. done.
  - destruct (initiate_inner rt) as [inner|] eqn:Hinner; [|by rewrite Hinner].
    case_decide as Hmatch; [|by rewrite Hinner].
    simpl. split; [done|]. split; [done|]. done.
  - split.
    + intros Hload. destruct (Hloading Hload) as [?|Hnever]; [by left|right].
      intros [?|?]%elem_of_cons; done.
    + split.
      * intros inner Hin. apply Hinitiate in Hin. lia.
      * intros inner [= <-]. unfold next_call. simpl. lia.
  - destruct (update_inner rt) as [inner|] eqn:Hinner; [|by rewrite Hinner].
    case_decide as Hmatch; [|by rewrite Hinner].
    destruct result as [payload|error]; simpl; (split; [done|]); split; done.
  - destruct (operation_keeps_loading (store rt) op) as [Hsame Hws].
    rewrite Hsame, Hws. done.
Qed.

Lemma play_settled_or_in_flight events rt :
  settled_or_in_flight rt → settled_or_in_flight (play events rt).
Proof.
  revert rt. induction events as [|ev events IH]; intros rt Hrt; [done|].
  simpl. by apply IH, handle_settled_or_in_flight.
Qed.

(** X20: the loading flag is never left on.  After any sequence of
    calls, responses and updater calls, if [isLoading] is true then either
    [initiate()] was never called, or an [initiate] call is still in
    flight (and will clear the flag when it settles). *)
Theorem loading_implies_in_flight registry free events :
  let rt := play events (boot registry free) in
  isLoading (Js.val (state (store rt))) = true →
  initiate_inner rt ≠ None ∨ Initiate ∉ ws (store rt).
Proof.
  simpl.
  assert (Hboot : settled_or_in_flight (boot registry free)).
  { split; [|split; done]. intros _. right. simpl. apply not_elem_of_nil. }
  by destruct (play_settled_or_in_flight events _ Hboot) as [Hloading _].
Qed.

Lemma loading_implies_in_flight_witness :
  initiate_inner (play [InitiateCalled; Called (DoSelectView Pools)] (boot ∅ 1%nat)) ≠ None
  ∨ Initiate ∉ ws (store (play [InitiateCalled; Called (DoSelectView Pools)] (boot ∅ 1%nat))).
Proof.
  apply (loading_implies_in_flight ∅ 1%nat [InitiateCalled; Called (DoSelectView Pools)]).
  reflexivity.
Defined.

(** X21: a run of [initiate()] or [update()] that nothing interrupts, read
    event by event ([switchMap] subscribing, the response arriving, the
    delay elapsing), ends in the store that the response pipeline as a
    whole gives, with no call left in flight. *)
Theorem play_uninterrupted rt result :
  initiate_inner rt = None →
  let remote := next_call (store rt) in
  let loaded :=
    play (InitiateCalled :: InitiateArrived remote result ::
          match result with
          | Succeeds _ => [InitiateDelayElapsed remote]
          | Fails _ => []
          end) rt in
  let updated := play [UpdateCalled; UpdateArrived remote result] rt in
  store loaded = initiate result (store rt)
  ∧ initiate_inner loaded = None
  ∧ store updated = update result (store rt)
  ∧ update_inner updated = None.
Proof.
  intros Hnone. simpl. rewrite Hnone. simpl.
  unfold next_call. simpl.
  rewrite !decide_True by done.
  destruct result as [payload|error]; simpl.
  - rewrite decide_True by done. done.
  - done.
Qed.

Lemma play_uninterrupted_witness :
  let rt := {| store := Sample.loaded; initiate_inner := None; update_inner := None |} in
  let remote := next_call Sample.loaded in
  let result := Succeeds [Sample.enclosure_b] in
  store (play [InitiateCalled; InitiateArrived remote result; InitiateDelayElapsed remote] rt)
  = initiate result Sample.loaded
  ∧ store (play [UpdateCalled; UpdateArrived remote result] rt)
    = update result Sample.loaded.
Proof.
  intros rt remote result.
  pose proof (play_uninterrupted rt result eq_refl) as (Hloaded & _ & Hupdated & _).
  split; [exact Hloaded|exact Hupdated].
Defined.

(** X22: calling [initiate()] again while its earlier call is in flight.
    [switchMap] drops the earlier inner observable, whose [finalize] runs
    after the reset: [isLoading] is false from then on, although the new
    call has only just been issued; the response of the dropped call is
    ignored when it comes; and when the payload of the new call arrives,
    the enclosures are patched with [isLoading] still false. *)
Theorem initiate_again_while_in_flight rt inner :
  initiate_inner rt = Some inner →
  (call inner < next_call (store rt))%nat →
  let again := handle rt InitiateCalled in
  isLoading (Js.val (state (store again))) = false
  ∧ enclosures (Js.val (state (store again))) = empty_array
  ∧ initiate_inner again = Some {| call := next_call (store rt); arrived := false |}
  ∧ (∀ result, handle again (InitiateArrived (call inner) result) = again)
  ∧ (∀ payload,
       let arrived := handle again (InitiateArrived (next_call (store rt)) (Succeeds payload)) in
       isLoading (Js.val (state (store arrived))) = false
       ∧ enclosures (Js.val (state (store arrived))) = array_of payload).
Proof.
  intros Hinner Hcall. simpl. rewrite Hinner. simpl.
  unfold next_call in *. simpl.
  split; [done|]. split; [done|]. split; [done|]. split.
  - intros result. rewrite decide_False; [done|]. simpl. lia.
  - intros payload. by rewrite decide_True.
Qed.

Lemma initiate_again_while_in_flight_witness :
  isLoading (Js.val (state (store
    (play [InitiateCalled; InitiateCalled] (boot ∅ 1%nat))))) = false
  ∧ initiate_inner (play [InitiateCalled; InitiateCalled] (boot ∅ 1%nat))
    = Some {| call := 1; arrived := false |}.
Proof.
  pose proof (initiate_again_while_in_flight (play [InitiateCalled] (boot ∅ 1%nat))
                {| call := 0; arrived := false |} eq_refl (Nat.lt_0_succ 0)) as H.
  simpl in H. destruct H as (H1 & _ & H2 & _). split; [exact H1|exact H2].
Defined.

(** X23: of two [update()] calls in a row only the later one counts.  In
    whichever order the two responses arrive, the result of the earlier
    call is neither applied nor reported, and the enclosures end as the
    payload of the later call. *)
Theorem update_latest_wins rt earlier payload :
  let first := next_call (store rt) in
  let second := S first in
  let called := play [UpdateCalled; UpdateCalled] rt in
  let in_order :=
    play [UpdateArrived first earlier; UpdateArrived second (Succeeds payload)] called in
  let reversed :=
    play [UpdateArrived second (Succeeds payload); UpdateArrived first earlier] called in
  in_order = reversed
  ∧ enclosures (Js.val (state (store in_order))) = array_of payload
  ∧ errorHandler (store in_order) = errorHandler (store rt)
  ∧ update_inner in_order = None.
Proof.
  simpl. unfold next_call. simpl.
  repeat (case_decide; try lia; simpl). done.
Qed.

(** X24: [initiate()] does not cancel an [update()] in flight, the two
    effects switch separately: the response of an update issued before
    the reset is still applied after it, onto the reset state and while
    the call of [initiate] is in flight. *)
Theorem initiate_keeps_update_in_flight rt inner payload :
  update_inner rt = Some inner →
  let rt' := play [InitiateCalled; UpdateArrived (call inner) (Succeeds payload)] rt in
  enclosures (Js.val (state (store rt'))) = array_of payload
  ∧ selectedEnclosureIndex (Js.val (state (store rt'))) = 0
  ∧ selectedSlot (Js.val (state (store rt'))) = None
  ∧ initiate_inner rt' = Some {| call := next_call (store rt); arrived := false |}
  ∧ update_inner rt' = None.
Proof.
  intros Hinner. simpl. rewrite Hinner. rewrite decide_True by done. simpl.
  unfold next_call. destruct (initiate_inner rt); simpl; done.
Qed.

Lemma initiate_keeps_update_in_flight_witness :
  enclosures (Js.val (state (store
    (play [UpdateCalled; InitiateCalled; UpdateArrived 0 (Succeeds [Sample.enclosure_a])]
       (boot ∅ 1%nat)))))
  = array_of [Sample.enclosure_a].
Proof.
  exact (proj1 (initiate_keeps_update_in_flight (play [UpdateCalled] (boot ∅ 1%nat))
                  {| call := 0; arrived := false |} [Sample.enclosure_a] eq_refl)).
Defined.
